(** * go-composer.json: version parsing, PSR-4 lookup, checks, local repositories

    A shallow embedding of [internal/version/version.go] and its test,
    [pkg/composer/errors.go] and [pkg/composer/composer.go].

    Go strings are byte sequences: they are modelled by [string], whose
    characters are 8-bit [ascii] values, so that [String.length] is Go's
    [len].  An [int64] is a [Z] together with its range check.  A Go
    [map[string]string] is a [gmap string string]; a [range] loop over it
    visits the entries in an unspecified order, which is made explicit below
    as a list that is a permutation of the map's entries. *)

From Stdlib Require Import ZArith NArith Lia.
From Stdlib Require Import Strings.String Strings.Ascii.
From Stdlib Require Import Numbers.DecimalString Numbers.DecimalN Numbers.DecimalFacts.
From stdpp Require Import base option list gmap strings fin_maps.

Local Open Scope Z_scope.

(* ===================================================================== *)
(** * Part I: definitions                                                 *)
(* ===================================================================== *)

(** ** Go's [strings] and [strconv] functions used by the sources *)

(** [len(s)], as an [int]. *)
Definition len (s : string) : Z := Z.of_nat (String.length s).

(** [strings.HasPrefix(s, prefix)]. *)
Definition HasPrefix (s prefix : string) : bool := String.prefix prefix s.

(** [strings.TrimPrefix(s, prefix)]: [s] without the leading [prefix], or [s]
    itself when it does not start with [prefix]. *)
Definition TrimPrefix (s prefix : string) : string :=
  if HasPrefix s prefix
  then String.substring (String.length prefix)
         (String.length s - String.length prefix)%nat s
  else s.

(** [strings.Split(s, sep)] for a one-byte separator: the substrings between
    the occurrences of [sep]; a string without separator, the empty one
    included, yields a single segment. *)
Fixpoint Split (s : string) (sep : ascii) : list string :=
  match s with
  | EmptyString => [EmptyString]
  | String c s' =>
      if Ascii.eqb c sep then EmptyString :: Split s' sep
      else match Split s' sep with
           | [] => [String c EmptyString]
           | seg :: segs => String c seg :: segs
           end
  end.

Definition maxUint64 : Z := 2 ^ 64 - 1.
Definition maxInt64 : Z := 2 ^ 63 - 1.

(** The value of a decimal digit byte, ['0'] to ['9']. *)
Definition digit_val (c : ascii) : option Z :=
  let n := Z.of_N (N_of_ascii c) in
  if (48 <=? n) && (n <=? 57) then Some (n - 48) else None.

(** The loop of [strconv.ParseUint(s, 10, 64)]: [None] stands for both of
    its errors, the syntax error on a byte that is no digit and the range
    error when the accumulator leaves [uint64]. *)
Fixpoint ParseUint_loop (s : string) (n : Z) : option Z :=
  match s with
  | EmptyString => Some n
  | String c s' =>
      match digit_val c with
      | None => None
      | Some d =>
          if maxUint64 / 10 + 1 <=? n then None
          else let n1 := n * 10 + d in
               if maxUint64 <? n1 then None else ParseUint_loop s' n1
      end
  end.

Definition ParseUint (s : string) : option Z :=
  match s with
  | EmptyString => None
  | _ => ParseUint_loop s 0
  end.

(** [strconv.ParseInt(s, 10, 64)]: an optional sign, then [ParseUint], then
    the [int64] range check.  [None] is a non-nil [err]. *)
Definition ParseInt (s : string) : option Z :=
  match s with
  | EmptyString => None
  | String c s' =>
      let '(neg, digits) :=
        if Ascii.eqb c "+" then (false, s')
        else if Ascii.eqb c "-" then (true, s')
        else (false, s) in
      match ParseUint digits with
      | None => None
      | Some un =>
          let cutoff := 2 ^ 63 in
          if negb neg && (cutoff <=? un) then None
          else if neg && (cutoff <? un) then None
          else Some (if neg then - un else un)
      end
  end.

(** ** internal/version/version.go *)

Module version.

Record Version := mkVersion {
  Major : Z;
  Minor : Z;
  Micro : Z;
  IsDev : bool;
  IsPatch : bool;
  IsAlpha : bool;
  IsBeta : bool;
  IsRC : bool
}.

(** The zero value [&Version{}]. *)
Definition Version_zero : Version :=
  mkVersion 0 0 0 false false false false false.

(** The errors of [NewVersion] are made by [fmt.Errorf]: an error is its
    message.  The four names are those of the specification's taxonomy. *)
Definition EmptyInput : string := "version is empty".

Definition MalformedFormat : string :=
  "version must be in the format [v]X.Y.Z[-suffix]".

Definition UnknownSuffix (suffix : string) : string :=
  "unknown version suffix '" +:+ suffix +:+ "'".

Definition NonNumericComponent (index : string) (value : string) : string :=
  "part " +:+ index +:+ " ('" +:+ value +:+ "') of the version must be a number".

(** The [switch vals[1]] of [NewVersion]: the flag set on the fresh version,
    or the unknown-suffix error. *)
Definition set_suffix (version : Version) (suffix : string) : string + Version :=
  let 'mkVersion ma mi mc dev patch alpha beta rc := version in
  if String.eqb suffix "dev" then inr (mkVersion ma mi mc true patch alpha beta rc)
  else if String.eqb suffix "patch" || String.eqb suffix "p"
  then inr (mkVersion ma mi mc dev true alpha beta rc)
  else if String.eqb suffix "alpha" || String.eqb suffix "a"
  then inr (mkVersion ma mi mc dev patch true beta rc)
  else if String.eqb suffix "beta" || String.eqb suffix "b"
  then inr (mkVersion ma mi mc dev patch alpha true rc)
  else if String.eqb suffix "RC" then inr (mkVersion ma mi mc dev patch alpha beta true)
  else inl (UnknownSuffix suffix).

(** [NewVersion(val)]: [inl msg] is [(nil, err)], [inr v] is [(v, nil)]. *)
Definition NewVersion (val : string) : string + Version :=
  let version := Version_zero in
  if String.eqb val "" then inl EmptyInput
  else if len val <? 5 then inl MalformedFormat
  else
    let val := TrimPrefix val "v" in
    let vals := Split val "-" in
    if 2 <? Z.of_nat (length vals) then inl MalformedFormat
    else
      let flagged :=
        match vals with
        | [_; suffix] => set_suffix version suffix
        | _ => inr version
        end in
      match flagged with
      | inl err => inl err
      | inr version =>
          let val := hd EmptyString vals in
          match Split val "." with
          | [v0; v1; v2] =>
              match ParseInt v0 with
              | None => inl (NonNumericComponent "1" v0)
              | Some major =>
                  match ParseInt v1 with
                  | None => inl (NonNumericComponent "2" v1)
                  | Some minor =>
                      match ParseInt v2 with
                      | None => inl (NonNumericComponent "3" v2)
                      | Some micro =>
                          let 'mkVersion _ _ _ dev patch alpha beta rc := version in
                          inr (mkVersion major minor micro dev patch alpha beta rc)
                      end
                  end
              end
          | _ => inl MalformedFormat
          end
      end.

(** [Version.HasPrefix]. *)
Definition Version_HasPrefix (v : Version) : bool :=
  IsDev v || IsPatch v || IsAlpha v || IsBeta v || IsRC v.

End version.

(** ** internal/version/version_test.go *)

Module version_test.

(** One row of the table of [TestVersion]; [Error] is [None] for the rows
    that leave it nil. *)
Record test_case := mkTest {
  Version : string;
  Expected : version.Version;
  Error : option string
}.

(** Go's [==] on [Version] values: all fields are compared. *)
Definition Version_eqb (v w : version.Version) : bool :=
  (version.Major v =? version.Major w) && (version.Minor v =? version.Minor w)
  && (version.Micro v =? version.Micro w)
  && Bool.eqb (version.IsDev v) (version.IsDev w)
  && Bool.eqb (version.IsPatch v) (version.IsPatch w)
  && Bool.eqb (version.IsAlpha v) (version.IsAlpha w)
  && Bool.eqb (version.IsBeta v) (version.IsBeta w)
  && Bool.eqb (version.IsRC v) (version.IsRC w).

Definition tests : list test_case :=
  [ mkTest "2.5.1" (version.mkVersion 2 5 1 false false false false false) None;
    mkTest "v0.5.1" (version.mkVersion 0 5 1 false false false false false) None;
    mkTest "v0.5.1-dev" (version.mkVersion 0 5 1 true false false false false) None;
    mkTest "v0.5.1-patch" (version.mkVersion 0 5 1 false true false false false) None;
    mkTest "v0.5.1-p" (version.mkVersion 0 5 1 false true false false false) None;
    mkTest "v0.5.1-alpha" (version.mkVersion 0 5 1 false false true false false) None;
    mkTest "v0.5.1-a" (version.mkVersion 0 5 1 false false true false false) None;
    mkTest "v0.5.1-beta" (version.mkVersion 0 5 1 false false false true false) None;
    mkTest "v0.5.1-b" (version.mkVersion 0 5 1 false false false true false) None;
    mkTest "v0.5.1-RC" (version.mkVersion 0 5 1 false false false false true) None;
    mkTest "" version.Version_zero (Some "version is empty");
    mkTest "1.0" version.Version_zero
      (Some "version must be in the format [v]X.Y.Z[-suffix]");
    mkTest "1.0.0-s-s" version.Version_zero
      (Some "version must be in the format [v]X.Y.Z[-suffix]");
    mkTest "1.0.0-unknown_suffix" version.Version_zero
      (Some "unknown version siffix 'unknown_suffix'");
    mkTest "1.0.0.0" version.Version_zero
      (Some "version must be in the format [v]X.Y.Z[-suffix]");
    mkTest "a.1.0" version.Version_zero
      (Some "part 1 ('a') of the version must be a number");
    mkTest "1.b.0" version.Version_zero
      (Some "part 2 ('b') of the version must be a number");
    mkTest "1.0.c" version.Version_zero
      (Some "part 3 ('c') of the version must be a number") ].

(** The body of the loop of [TestVersion] on one row: the messages it passes
    to [t.Errorf], which records a failure and goes on. *)
Definition TestVersion_case (test : test_case) : list string :=
  let result := version.NewVersion (Version test) in
  (match result, Error test with
   | inl err, Some expected =>
       if negb (String.eqb err expected) then ["unexpected error"] else []
   | _, _ => []
   end)
  ++ (match result with
      | inr v =>
          if negb (Version_eqb v (Expected test)) then ["version is not correct"]
          else []
      | inl _ => []
      end).

(** [TestVersion] on a table: the failures it records, in order. *)
Definition TestVersion (table : list test_case) : list string :=
  concat (map TestVersion_case table).

End version_test.

(** ** pkg/composer/errors.go and pkg/composer/composer.go *)

Module composer.

(** [ConfigError]: one error in the config. *)
Record ConfigError := mkConfigError {
  Msg : string;
  Critical : bool
}.

(** [ConfigError.Error]. *)
Definition ConfigError_Error (ce : ConfigError) : string :=
  let res := "" in
  let res := if Critical ce then res +:+ "<critical> " else res in
  res +:+ Msg ce.

(** [Autoload]: the psr-4 table and the file list. *)
Record Autoload := mkAutoload {
  Psr4 : gmap string string;
  Files : list string
}.

(** [ConfigRepo]: one entry of [repositories].  The field [Type] is
    [Type_] here, and [ConfigType] in the config. *)
Record ConfigRepo := mkConfigRepo {
  Type_ : string;
  Url : string;
  Resolved : bool
}.

(** The fields of [Config] other than [Checks].  [Version] is a pointer:
    [None] is [nil].  The field [Autoload] is [Autoload_] here. *)
Record ConfigData := mkConfigData {
  Name : string;
  Description : string;
  RawVersion : string;
  Version : option version.Version;
  ConfigType : string;
  Require : gmap string string;
  RequireDev : gmap string string;
  Reps : list ConfigRepo;
  Autoload_ : Autoload;
  AutoloadDev : Autoload;
  Path : string;
  RootDir : string
}.

(** A registered check, a Go function from a [Config] pointer to a
    [ConfigError] pointer: it receives the pointer to the config, which Go
    lets it write through, and returns a finding or [nil].  The config it
    leaves is threaded to the next check. *)
Definition Check : Type := ConfigData -> ConfigData * option ConfigError.

(** [Config]: the decoded fields together with the registered checks. *)
Record Config := mkConfig {
  data : ConfigData;
  Checks : list Check
}.

(** The zero value [Config{}]. *)
Definition ConfigData_zero : ConfigData :=
  mkConfigData "" "" "" None "" ∅ ∅ [] (mkAutoload ∅ []) (mkAutoload ∅ []) "" "".

Definition Config_zero : Config := mkConfig ConfigData_zero [].

(** [ConfigErrors]: all errors of one config.  [Config] is a pointer, [None]
    is [nil]; the entries of [Errors] are the non-nil pointers that the
    loader and [CheckConfig] append. *)
Record ConfigErrors := mkConfigErrors {
  Config_ : option ConfigData;
  Errors : list ConfigError
}.

(** [NewConfigErrors(errors...)]: the [Config] field is left at its zero
    value, the nil pointer. *)
Definition NewConfigErrors (errors : list ConfigError) : ConfigErrors :=
  mkConfigErrors None errors.

(** [ConfigErrors.Add]. *)
Definition Add (ce : ConfigErrors) (err : ConfigError) : ConfigErrors :=
  mkConfigErrors (Config_ ce) (Errors ce ++ [err]).

(** [ConfigErrors.Len]. *)
Definition Len (ce : ConfigErrors) : Z := Z.of_nat (length (Errors ce)).

(** [fmt.Sprintf("config %s: %s\n", path, msg)]. *)
Definition newline : string := String (ascii_of_nat 10) EmptyString.

Definition Sprintf_config_line (path msg : string) : string :=
  "config " +:+ path +:+ ": " +:+ msg +:+ newline.

(** [ConfigErrors.Error]: one line per error.  The loop body reads
    [ce.Config.Path]: with a nil [ce.Config] the first iteration panics
    with a nil pointer dereference, which is [None]. *)
Definition ConfigErrors_Error (ce : ConfigErrors) : option string :=
  foldl (fun (res : option string) (e : ConfigError) =>
           match res, Config_ ce with
           | Some res, Some config =>
               Some (res +:+ Sprintf_config_line (Path config) (ConfigError_Error e))
           | _, _ => None
           end)
        (Some "") (Errors ce).

(** [ConfigErrors.Error] on a report as Go stores it: [Errors] is a slice of
    pointers, and an entry may be nil, which [Add] accepts.  Each iteration
    reads [ce.Config.Path] and calls [e.Error()], whose receiver is a
    value: a nil [ce.Config] and a nil entry both panic, which is [None]. *)
Definition ConfigErrors_Error_ptr (config : option ConfigData)
    (errors : list (option ConfigError)) : option string :=
  foldl (fun (res : option string) (e : option ConfigError) =>
           match res, config, e with
           | Some res, Some config, Some e =>
               Some (res +:+ Sprintf_config_line (Path config) (ConfigError_Error e))
           | _, _, _ => None
           end)
        (Some "") errors.

(** *** PSR-4 lookup *)

(** One iteration of the [range a.Psr4] loop, on the pair
    [(psrNameForFound, foundPath)]. *)
Definition psr4_step (name : string) (found : string * string)
    (entry : string * string) : string * string :=
  let '(psrNameForFound, foundPath) := found in
  let '(psrName, psrPath) := entry in
  if HasPrefix name psrName then
    if len psrNameForFound <? len psrName then (psrName, psrPath) else found
  else found.

(** [Autoload.Psr4PathForNamespace] when the [range] loop visits the entries
    of the table in the order [entries]. *)
Definition Psr4PathForNamespace_range (entries : list (string * string))
    (name : string) : string * bool :=
  let name := name +:+ "\" in
  let '(_, foundPath) := foldl (psr4_step name) ("", "") entries in
  if String.eqb foundPath "" then ("", false) else (foundPath, true).

(** [Autoload.Psr4PathForNamespace], the entries taken in the order in which
    [map_to_list] lists them. *)
Definition Autoload_Psr4PathForNamespace (a : Autoload) (name : string)
    : string * bool :=
  Psr4PathForNamespace_range (map_to_list (Psr4 a)) name.

(** The keys of a table that are a prefix of a query, and the longest among
    the keys that satisfy a condition. *)
Definition prefix_key (table : gmap string string) (query key : string) : Prop :=
  is_Some (table !! key) ∧ HasPrefix query key = true.

Definition longest_among (P : string -> Prop) (key : string) : Prop :=
  P key ∧ ∀ key', P key' -> (String.length key' <= String.length key)%nat.

(** *** The library functions the package calls *)

(** [encoding/json] and [path/filepath] are outside the package: the
    development is parametric in them.  [json_Unmarshal] decodes into a
    zero-valued config and returns it, or the error message;
    [filepath_Abs] is the path that [filepath.Abs] returns, its error
    being dropped by the caller. *)
Class Library := {
  json_Unmarshal : list Byte.byte -> string + ConfigData;
  filepath_Abs : string -> string;
  filepath_Dir : string -> string;
  filepath_Base : string -> string;
  filepath_Join : string -> string -> string;
  filepath_Clean : string -> string;
  filepath_ToSlash : string -> string
}.

Section WithLibrary.
Context `{Library}.

(** [Config.Psr4PathForNamespace]. *)
Definition Config_Psr4PathForNamespace (c : Config) (name : string)
    : string * bool :=
  let dir := filepath_Base (RootDir (data c)) in
  let '(path, contains) := Autoload_Psr4PathForNamespace (Autoload_ (data c)) name in
  if contains then (dir +:+ "/" +:+ path, true)
  else
    let '(path, containsInDev) :=
      Autoload_Psr4PathForNamespace (AutoloadDev (data c)) name in
    if containsInDev then (dir +:+ "/" +:+ path, true)
    else ("", false).

(** [NewConfigFromData].  [configErrors.Config] points to [config], so it
    sees the assignments made to [config] after [configErrors] is built:
    the report carries the config as it is returned. *)
Definition NewConfigFromData (bytes : list Byte.byte) (configPath : string)
    : Config * option ConfigErrors :=
  match json_Unmarshal bytes with
  | inl err =>
      (Config_zero, Some (NewConfigErrors [mkConfigError err true]))
  | inr config =>
      let '(ver, errs) :=
        match version.NewVersion (RawVersion config) with
        | inl err => (None, [mkConfigError err false])
        | inr v => (Some v, [])
        end in
      let absPath := filepath_Abs configPath in
      let root := filepath_Dir absPath in
      let config :=
        mkConfigData (Name config) (Description config) (RawVersion config) ver
          (ConfigType config) (Require config) (RequireDev config) (Reps config)
          (Autoload_ config) (AutoloadDev config) absPath root in
      let configErrors := foldl Add (mkConfigErrors (Some config) []) errs in
      if negb (Len configErrors =? 0) then (mkConfig config [], Some configErrors)
      else (mkConfig config [], None)
  end.

(** [ConfigRepo.ResolveUrl]: the entry is updated in place and returned. *)
Definition ResolveUrl (c : ConfigRepo) (path : string) : ConfigRepo :=
  if Resolved c then c
  else if negb (String.eqb (Type_ c) "path") then c
  else
    let c :=
      mkConfigRepo (Type_ c) (filepath_Clean (filepath_Join path (Url c)))
        (Resolved c) in
    let c := mkConfigRepo (Type_ c) (filepath_ToSlash (Url c)) (Resolved c) in
    mkConfigRepo (Type_ c) (Url c) true.

End WithLibrary.

(** *** Custom checks *)

(** [Config.AddCheck]. *)
Definition AddCheck (c : Config) (check : Check) : Config :=
  mkConfig (data c) (Checks c ++ [check]).

(** The state of the loop of [CheckConfig]: the config behind the pointer
    [c], the report under construction, and the indices of the checks
    invoked so far, oldest first. *)
Record run := mkRun {
  run_config : ConfigData;
  run_errors : list ConfigError;
  run_calls : list nat
}.

(** The [range c.Checks] loop from index [i] on. *)
Fixpoint CheckConfig_loop (checks : list Check) (i : nat) (st : run) : run :=
  match checks with
  | [] => st
  | check :: checks' =>
      let '(config, err) := check (run_config st) in
      let errors :=
        match err with
        | Some e => run_errors st ++ [e]
        | None => run_errors st
        end in
      CheckConfig_loop checks' (S i) (mkRun config errors (run_calls st ++ [i]))
  end.

(** [Config.CheckConfig]: the calls made, the config the checks leave, and
    the report, [None] being the nil result. *)
Definition CheckConfig (c : Config) : list nat * Config * option ConfigErrors :=
  let st := CheckConfig_loop (Checks c) 0 (mkRun (data c) [] []) in
  let errors := mkConfigErrors (Some (run_config st)) (run_errors st) in
  (run_calls st, mkConfig (run_config st) (Checks c),
   if Len errors =? 0 then None else Some errors).

(** What each check returns when the checks run one after the other from
    [config] on, in registration order. *)
Fixpoint check_outcomes (checks : list Check) (config : ConfigData)
    : list (option ConfigError) :=
  match checks with
  | [] => []
  | check :: checks' =>
      let '(config', err) := check config in
      err :: check_outcomes checks' config'
  end.

(** *** Loading from a file *)

Section WithFile.
Context `{Library}.

(** [ioutil.ReadFile]: the error message, or the bytes of the file. *)
Variable ioutil_ReadFile : string -> string + list Byte.byte.

(** [NewConfigFromFile]. *)
Definition NewConfigFromFile (path : string) : Config * option ConfigErrors :=
  match ioutil_ReadFile path with
  | inl err => (Config_zero, Some (NewConfigErrors [mkConfigError err true]))
  | inr bytes => NewConfigFromData bytes path
  end.

End WithFile.

End composer.

(** ** Vocabulary of the statements *)

(** Every byte of a string satisfies a test. *)
Fixpoint all_bytes (P : ascii -> bool) (s : string) : bool :=
  match s with
  | EmptyString => true
  | String c s' => P c && all_bytes P s'
  end.

Definition is_digit (c : ascii) : bool :=
  match digit_val c with Some _ => true | None => false end.

(** DIGITS of the version grammar: one decimal digit or more. *)
Definition DIGITS (s : string) : bool :=
  negb (String.eqb s "") && all_bytes is_digit s.

(** A non-negative integer written in decimal. *)
Definition decimal (n : N) : string := NilEmpty.string_of_uint (N.to_uint n).

(** The value of a decimal numeral read from the left, after the digits
    that make up [n]. *)
Fixpoint uint_val (d : Decimal.uint) (n : Z) : Z :=
  match d with
  | Decimal.Nil => n
  | Decimal.D0 l => uint_val l (n * 10 + 0)
  | Decimal.D1 l => uint_val l (n * 10 + 1)
  | Decimal.D2 l => uint_val l (n * 10 + 2)
  | Decimal.D3 l => uint_val l (n * 10 + 3)
  | Decimal.D4 l => uint_val l (n * 10 + 4)
  | Decimal.D5 l => uint_val l (n * 10 + 5)
  | Decimal.D6 l => uint_val l (n * 10 + 6)
  | Decimal.D7 l => uint_val l (n * 10 + 7)
  | Decimal.D8 l => uint_val l (n * 10 + 8)
  | Decimal.D9 l => uint_val l (n * 10 + 9)
  end.

(** ["X.Y.Z"] from its three components. *)
Definition dotted (x y z : string) : string := x +:+ "." +:+ y +:+ "." +:+ z.

(** The suffix flags of the version grammar and the tokens that select them. *)
Inductive Flag := Dev | Patch | Alpha | Beta | RC.

Definition suffix_tokens : list (string * Flag) :=
  [("dev", Dev); ("patch", Patch); ("p", Patch); ("alpha", Alpha); ("a", Alpha);
   ("beta", Beta); ("b", Beta); ("RC", RC)].

(** The version [x.y.z] with no flag, and with exactly the flag [f]. *)
Definition release (x y z : Z) : version.Version :=
  version.mkVersion x y z false false false false false.

Definition flagged (x y z : Z) (f : Flag) : version.Version :=
  version.mkVersion x y z
    (match f with Dev => true | _ => false end)
    (match f with Patch => true | _ => false end)
    (match f with Alpha => true | _ => false end)
    (match f with Beta => true | _ => false end)
    (match f with RC => true | _ => false end).

(** The number of suffix flags a version has set. *)
Definition flag_count (v : version.Version) : nat :=
  (Nat.b2n (version.IsDev v) + Nat.b2n (version.IsPatch v)
   + Nat.b2n (version.IsAlpha v) + Nat.b2n (version.IsBeta v)
   + Nat.b2n (version.IsRC v))%nat.

(** The keys the lookup loop can select: the non-empty keys of the table
    that are a prefix of the query. *)
Definition candidate (table : gmap string string) (query key : string) : Prop :=
  key ≠ "" ∧ composer.prefix_key table query key.

(** The tables of the specification's examples. *)
Definition table_core : gmap string string := {["My\Core\" := "src"]}.

Definition table_overlap : gmap string string :=
  <["My\" := "a"]> {["My\Core\" := "b"]}.

Definition table_shadowed : gmap string string :=
  <["My\" := "a"]> {["My\Core\" := ""]}.

(** Stand-ins for the library functions, used to exhibit inputs: a decoder
    that knows the document [{}] only, which decodes to the zero config, and
    rejects every other input the way [encoding/json] rejects a truncated
    document; and the [path/filepath] functions on rooted Unix paths. *)
Definition sample_Unmarshal (bytes : list Byte.byte)
    : string + composer.ConfigData :=
  if String.eqb (String.string_of_list_byte bytes) "{}"
  then inr composer.ConfigData_zero
  else inl "unexpected end of JSON input".

Definition sample_Clean (path : string) : string :=
  let segments :=
    foldl (fun (stack : list string) (segment : string) =>
             if String.eqb segment "" || String.eqb segment "." then stack
             else if String.eqb segment ".." then removelast stack
             else stack ++ [segment])
          [] (Split path "/") in
  "/" +:+ String.concat "/" segments.

Definition sample_Dir (path : string) : string :=
  sample_Clean (String.concat "/" (removelast (Split path "/"))).

Definition sample_Base (path : string) : string :=
  default "" (last (Split path "/")).

Definition sample_library : composer.Library := {|
  composer.json_Unmarshal := sample_Unmarshal;
  composer.filepath_Abs := sample_Clean;
  composer.filepath_Dir := sample_Dir;
  composer.filepath_Base := sample_Base;
  composer.filepath_Join := fun base path => base +:+ "/" +:+ path;
  composer.filepath_Clean := sample_Clean;
  composer.filepath_ToSlash := fun path => path
|}.

(** A loaded manifest in [/proj/app] with the two example tables. *)
Definition config_app : composer.Config :=
  composer.mkConfig
    (composer.mkConfigData "my/app" "" "1.0.0" (Some (release 1 0 0)) "" ∅ ∅ []
       (composer.mkAutoload table_core []) (composer.mkAutoload table_shadowed [])
       "/proj/app/composer.json" "/proj/app")
    [].

(** A file system that holds the document [{}] at one path and nothing
    else. *)
Definition sample_ReadFile (path : string) : string + list Byte.byte :=
  if String.eqb path "/proj/app/composer.json" then inr [Byte.x7b; Byte.x7d]
  else inl ("open " +:+ path +:+ ": no such file or directory").

(** A check that renames the config it is given and reports nothing. *)
Definition check_rename : composer.Check :=
  fun config =>
    (composer.mkConfigData "my/renamed" (composer.Description config)
       (composer.RawVersion config) (composer.Version config)
       (composer.ConfigType config) (composer.Require config)
       (composer.RequireDev config) (composer.Reps config)
       (composer.Autoload_ config) (composer.AutoloadDev config)
       (composer.Path config) (composer.RootDir config),
     None).

(** The recognized suffix tokens, without their flags. *)
Definition is_suffix_token (suffix : string) : bool :=
  existsb (fun token => String.eqb suffix token.1) suffix_tokens.

(** A check in the manner of the README: the name must start with [my/]. *)
Definition check_name_prefix : composer.Check :=
  fun config =>
    (config,
     if HasPrefix (composer.Name config) "my/" then None
     else Some (composer.mkConfigError "name must starts with prefix my/" true)).

(** A check that passes. *)
Definition check_pass : composer.Check := fun config => (config, None).

(** A check that reports a non-critical finding. *)
Definition check_description : composer.Check :=
  fun config =>
    (config,
     if String.eqb (composer.Description config) ""
     then Some (composer.mkConfigError "description is empty" false)
     else None).

(* ===================================================================== *)
(** * Part II: theorems                                                   *)
(* ===================================================================== *)

(** ** Strings *)

Lemma length_append (s t : string) :
  String.length (s +:+ t) = (String.length s + String.length t)%nat.
Proof. induction s as [|c s IH]; simpl; [done | by rewrite IH]. Qed.

Lemma append_cons (c : ascii) (s t : string) :
  String c s +:+ t = String c (s +:+ t).
Proof. reflexivity. Qed.

Lemma append_nil_r (s : string) : s +:+ "" = s.
Proof. induction s as [|c s IH]; [done | rewrite append_cons; by f_equal]. Qed.

Lemma append_assoc (s t u : string) : (s +:+ t) +:+ u = s +:+ t +:+ u.
Proof. induction s as [|c s IH]; [done | rewrite !append_cons; by f_equal]. Qed.

Lemma substring_all (s : string) : String.substring 0 (String.length s) s = s.
Proof. induction s as [|c s IH]; simpl; [done | by rewrite IH]. Qed.

Lemma all_bytes_append P (s t : string) :
  all_bytes P (s +:+ t) = all_bytes P s && all_bytes P t.
Proof.
  induction s as [|c s IH]; simpl; [done |].
  by rewrite IH, andb_assoc.
Qed.

(** Two prefixes of one string that have the same length are equal. *)
Lemma HasPrefix_length_inj (s p1 p2 : string) :
  HasPrefix s p1 = true -> HasPrefix s p2 = true ->
  String.length p1 = String.length p2 -> p1 = p2.
Proof.
  unfold HasPrefix. revert p1 p2.
  induction s as [|c s IH]; intros [|a p1] [|b p2]; simpl; try done.
  destruct (ascii_dec a c) as [->|]; [|done].
  destruct (ascii_dec b c) as [->|]; [|done].
  intros H1 H2 [= Hlen]. f_equal. by apply IH.
Qed.

Lemma HasPrefix_nil (s : string) : HasPrefix s "" = true.
Proof. by destruct s. Qed.

(** [TrimPrefix] on the two shapes a version string has. *)
Lemma TrimPrefix_v (s : string) : TrimPrefix (String "v" s) "v" = s.
Proof.
  unfold TrimPrefix, HasPrefix. simpl.
  destruct s as [|c s]; simpl; [done |].
  by rewrite substring_all.
Qed.

Lemma prefix_cons (a b : ascii) (p s : string) :
  String.prefix (String a p) (String b s)
  = if ascii_dec a b then String.prefix p s else false.
Proof. reflexivity. Qed.

Lemma TrimPrefix_other (c : ascii) (s : string) :
  c ≠ "v"%char -> TrimPrefix (String c s) "v" = String c s.
Proof.
  intros Hc. unfold TrimPrefix, HasPrefix. rewrite prefix_cons.
  destruct (ascii_dec "v" c) as [Heq|]; [by destruct Hc | done].
Qed.

(** [Split] on a string without separator, and around a first separator. *)
Lemma Split_none (sep : ascii) (s : string) :
  all_bytes (fun c => negb (Ascii.eqb c sep)) s = true -> Split s sep = [s].
Proof.
  induction s as [|c s IH]; simpl; [done |].
  intros [Hc Hs]%andb_true_iff.
  apply negb_true_iff in Hc. rewrite Hc. by rewrite IH.
Qed.

Lemma Split_first (sep : ascii) (s t : string) :
  all_bytes (fun c => negb (Ascii.eqb c sep)) s = true ->
  Split (s +:+ String sep t) sep = s :: Split t sep.
Proof.
  induction s as [|c s IH]; simpl.
  - intros _. by rewrite Ascii.eqb_refl.
  - intros [Hc Hs]%andb_true_iff.
    apply negb_true_iff in Hc. rewrite Hc. by rewrite IH.
Qed.

Lemma Split_nonempty (sep : ascii) (s : string) : Split s sep ≠ [].
Proof.
  induction s as [|c s IH]; simpl; [done |].
  destruct (Ascii.eqb c sep); [done |].
  by destruct (Split s sep).
Qed.

Lemma all_bytes_impl (P Q : ascii -> bool) (s : string) :
  (∀ c, P c = true -> Q c = true) -> all_bytes P s = true -> all_bytes Q s = true.
Proof.
  intros HPQ. induction s as [|c s IH]; simpl; [done |].
  intros [Hc Hs]%andb_true_iff. rewrite (HPQ c Hc). by rewrite IH.
Qed.

(** A digit is none of the bytes the version syntax gives a role to. *)
Lemma is_digit_not (c sep : ascii) :
  is_digit sep = false -> is_digit c = true -> negb (Ascii.eqb c sep) = true.
Proof.
  intros Hsep Hc. apply negb_true_iff, Ascii.eqb_neq. intros ->. congruence.
Qed.

(** ** Decimal numerals and [strconv.ParseInt] *)

Lemma digit_val_range (c : ascii) (d : Z) : digit_val c = Some d -> 0 <= d <= 9.
Proof.
  unfold digit_val.
  destruct (Z.leb_spec 48 (Z.of_N (N_of_ascii c)));
    destruct (Z.leb_spec (Z.of_N (N_of_ascii c)) 57); simpl; intros [= <-]; lia.
Qed.

Lemma ParseUint_loop_step (c : ascii) (s : string) (n d : Z) :
  digit_val c = Some d -> 0 <= n -> n * 10 + d <= maxUint64 ->
  ParseUint_loop (String c s) n = ParseUint_loop s (n * 10 + d).
Proof.
  intros Hd Hn Hmax. pose proof (digit_val_range _ _ Hd) as Hr.
  cbn [ParseUint_loop]. rewrite Hd.
  unfold maxUint64 in *.
  change (2 ^ 64 - 1) with 18446744073709551615 in *.
  change (18446744073709551615 / 10 + 1) with 1844674407370955162.
  destruct (Z.leb_spec 1844674407370955162 n); [lia |].
  destruct (Z.ltb_spec 18446744073709551615 (n * 10 + d)); [lia | done].
Qed.

Lemma uint_val_le (d : Decimal.uint) (n : Z) : 0 <= n -> n <= uint_val d n.
Proof.
  revert n. induction d as [|d IH|d IH|d IH|d IH|d IH|d IH|d IH|d IH|d IH|d IH];
    intros n Hn; cbn [uint_val]; [lia | ..];
    (etrans; [|apply IH]; lia).
Qed.

Ltac digit_step IH :=
  match goal with
  | |- _ = Some (uint_val _ (_ * 10 + ?k)) =>
      rewrite (ParseUint_loop_step _ _ _ k);
      [apply IH; [lia | assumption] | reflexivity | lia
      | etrans; [|eassumption]; apply uint_val_le; lia]
  end.

Lemma ParseUint_loop_uint (d : Decimal.uint) (n : Z) :
  0 <= n -> uint_val d n <= maxUint64 ->
  ParseUint_loop (NilEmpty.string_of_uint d) n = Some (uint_val d n).
Proof.
  revert n. induction d as [|d IH|d IH|d IH|d IH|d IH|d IH|d IH|d IH|d IH|d IH];
    intros n Hn Hmax; cbn [uint_val NilEmpty.string_of_uint] in *; [done | ..];
    digit_step IH.
Qed.

Lemma uint_val_pos (d : Decimal.uint) (p : positive) :
  uint_val d (Z.pos p) = Z.pos (Pos.of_uint_acc d p).
Proof.
  revert p. induction d as [|d IH|d IH|d IH|d IH|d IH|d IH|d IH|d IH|d IH|d IH];
    intros p; cbn [uint_val Pos.of_uint_acc]; [done | ..];
    rewrite <- IH; f_equal; lia.
Qed.

Lemma uint_val_0 (d : Decimal.uint) : uint_val d 0 = Z.of_N (Pos.of_uint d).
Proof.
  induction d as [|d IH|d IH|d IH|d IH|d IH|d IH|d IH|d IH|d IH|d IH];
    cbn [uint_val Pos.of_uint]; [done | exact IH | ..];
    cbn [Z.mul Z.add Z.of_N]; apply uint_val_pos.
Qed.

Lemma uint_val_to_uint (x : N) : uint_val (N.to_uint x) 0 = Z.of_N x.
Proof.
  rewrite uint_val_0. f_equal. exact (DecimalN.Unsigned.of_to x).
Qed.

Lemma string_of_uint_digits (d : Decimal.uint) :
  all_bytes is_digit (NilEmpty.string_of_uint d) = true.
Proof. induction d; cbn [NilEmpty.string_of_uint all_bytes]; by try rewrite IHd. Qed.

Lemma decimal_DIGITS (x : N) : DIGITS (decimal x) = true.
Proof.
  unfold DIGITS, decimal. rewrite string_of_uint_digits, andb_true_r.
  apply negb_true_iff, String.eqb_neq. intros Hnil.
  assert (N.to_uint x = Decimal.Nil) as Hx by (by destruct (N.to_uint x)).
  pose proof (DecimalN.Unsigned.of_to x) as Hof. rewrite Hx in Hof.
  cbn in Hof. subst x. discriminate Hx.
Qed.

(** On a digit string [ParseInt] is the loop of [ParseUint] followed by the
    [int64] range check. *)
Lemma ParseInt_DIGITS (s : string) :
  DIGITS s = true ->
  ParseInt s = match ParseUint_loop s 0 with
               | Some un => if 2 ^ 63 <=? un then None else Some un
               | None => None
               end.
Proof.
  unfold DIGITS. destruct s as [|c s]; [done |].
  cbn [String.eqb negb andb all_bytes]. intros [Hc _]%andb_true_iff.
  unfold ParseInt.
  destruct (Ascii.eqb_spec c "+") as [->|_]; [done |].
  destruct (Ascii.eqb_spec c "-") as [->|_]; [done |].
  cbn [ParseUint negb andb]. by destruct (ParseUint_loop (String c s) 0).
Qed.

Lemma ParseInt_decimal (x : N) :
  Z.of_N x <= maxInt64 -> ParseInt (decimal x) = Some (Z.of_N x).
Proof.
  intros Hx. rewrite ParseInt_DIGITS by apply decimal_DIGITS.
  unfold decimal. unfold maxInt64 in Hx.
  rewrite ParseUint_loop_uint, uint_val_to_uint.
  - destruct (Z.leb_spec (2 ^ 63) (Z.of_N x)); [lia | done].
  - done.
  - rewrite uint_val_to_uint. unfold maxUint64. lia.
Qed.

(** ** [NewVersion] on the strings of the version grammar *)

Lemma DIGITS_cons (s : string) :
  DIGITS s = true ->
  ∃ c s', s = String c s' ∧ is_digit c = true ∧ all_bytes is_digit s' = true.
Proof.
  unfold DIGITS. destruct s as [|c s']; [done |].
  cbn [String.eqb negb andb all_bytes]. intros [Hc Hs]%andb_true_iff. eauto.
Qed.

Lemma DIGITS_all (s : string) : DIGITS s = true -> all_bytes is_digit s = true.
Proof. unfold DIGITS. by intros [_ ?]%andb_true_iff. Qed.

Lemma DIGITS_length (s : string) : DIGITS s = true -> (1 <= String.length s)%nat.
Proof. intros (c & s' & -> & _)%DIGITS_cons. simpl. lia. Qed.

Lemma DIGITS_no (sep : ascii) (s : string) :
  is_digit sep = false -> DIGITS s = true ->
  all_bytes (fun c => negb (Ascii.eqb c sep)) s = true.
Proof.
  intros Hsep Hs%DIGITS_all. revert Hs. apply all_bytes_impl.
  intros c. by apply is_digit_not.
Qed.

Lemma dotted_no_dash (xs ys zs : string) :
  DIGITS xs = true -> DIGITS ys = true -> DIGITS zs = true ->
  all_bytes (fun c => negb (Ascii.eqb c "-")) (dotted xs ys zs) = true.
Proof.
  intros Hx Hy Hz. unfold dotted.
  rewrite !all_bytes_append.
  by rewrite (DIGITS_no "-" xs), (DIGITS_no "-" ys), (DIGITS_no "-" zs).
Qed.

Lemma Split_dotted (xs ys zs : string) :
  DIGITS xs = true -> DIGITS ys = true -> DIGITS zs = true ->
  Split (dotted xs ys zs) "." = [xs; ys; zs].
Proof.
  intros Hx Hy Hz.
  change (dotted xs ys zs) with (xs +:+ String "." (ys +:+ String "." zs)).
  rewrite (Split_first "." xs), (Split_first "." ys), (Split_none "." zs);
    by try apply DIGITS_no.
Qed.

Lemma dotted_length (xs ys zs : string) :
  DIGITS xs = true -> DIGITS ys = true -> DIGITS zs = true ->
  (5 <= String.length (dotted xs ys zs))%nat.
Proof.
  intros Hx%DIGITS_length Hy%DIGITS_length Hz%DIGITS_length.
  unfold dotted. rewrite !length_append. simpl. lia.
Qed.

Lemma suffix_tokens_inv (T : string) (f : Flag) :
  (T, f) ∈ suffix_tokens ->
  version.set_suffix version.Version_zero T = inr (flagged 0 0 0 f)
  ∧ all_bytes (fun c => negb (Ascii.eqb c "-")) T = true.
Proof.
  unfold suffix_tokens. rewrite !elem_of_cons, elem_of_nil.
  intros [H|[H|[H|[H|[H|[H|[H|[H|[]]]]]]]]]; injection H as -> ->; by vm_compute.
Qed.

(** A string of the grammar [["v"] DIGITS "." DIGITS "." DIGITS ["-" SUFFIX]]
    whose components fit [int64] parses to their values, with the flags the
    suffix sets on a fresh version. *)
Lemma NewVersion_grammar (pre tail xs ys zs : string) (x y z : Z)
    (v0 : version.Version) :
  DIGITS xs = true -> DIGITS ys = true -> DIGITS zs = true ->
  ParseInt xs = Some x -> ParseInt ys = Some y -> ParseInt zs = Some z ->
  pre = "" ∨ pre = "v" ->
  (tail = "" ∧ v0 = version.Version_zero)
  ∨ (∃ T, tail = String "-" T
          ∧ all_bytes (fun c => negb (Ascii.eqb c "-")) T = true
          ∧ version.set_suffix version.Version_zero T = inr v0) ->
  version.NewVersion (pre +:+ dotted xs ys zs +:+ tail)
  = inr (version.mkVersion x y z (version.IsDev v0) (version.IsPatch v0)
           (version.IsAlpha v0) (version.IsBeta v0) (version.IsRC v0)).
Proof.
  intros Hx Hy Hz Px Py Pz Hpre Htail.
  pose proof (dotted_length xs ys zs Hx Hy Hz) as Hlen.
  pose proof (dotted_no_dash xs ys zs Hx Hy Hz) as Hdash.
  assert (TrimPrefix (pre +:+ dotted xs ys zs +:+ tail) "v"
          = dotted xs ys zs +:+ tail) as Htrim.
  { destruct Hpre as [-> | ->].
    - destruct (DIGITS_cons xs Hx) as (c & xs' & -> & Hc & _).
      change ("" +:+ ?s) with s. unfold dotted. rewrite !append_cons.
      apply TrimPrefix_other. intros ->. discriminate Hc.
    - apply TrimPrefix_v. }
  assert (String.length (pre +:+ dotted xs ys zs +:+ tail) >= 5)%nat as Hfull.
  { rewrite !length_append. lia. }
  unfold version.NewVersion. cbv zeta. rewrite Htrim.
  destruct (String.eqb_spec (pre +:+ dotted xs ys zs +:+ tail) "") as [Hnil|_].
  { rewrite Hnil in Hfull. simpl in Hfull. lia. }
  destruct (Z.ltb_spec (len (pre +:+ dotted xs ys zs +:+ tail)) 5) as [Hlt|_].
  { unfold len in Hlt. lia. }
  destruct Htail as [[-> ->] | (T & -> & HT & Hsuffix)].
  - replace (dotted xs ys zs +:+ "") with (dotted xs ys zs)
      by (clear; induction (dotted xs ys zs); [done | rewrite append_cons; by f_equal]).
    rewrite Split_none by done.
    cbn [length hd Z.of_nat Z.ltb Z.compare Pos.compare Pos.compare_cont
         Pos.of_succ_nat].
    rewrite Split_dotted by done. by rewrite Px, Py, Pz.
  - rewrite Split_first, (Split_none "-" T) by done.
    cbn [length hd Z.of_nat Z.ltb Z.compare Pos.compare Pos.compare_cont
         Pos.of_succ_nat Pos.succ].
    rewrite Hsuffix, Split_dotted by done. rewrite Px, Py, Pz. by destruct v0.
Qed.

Ltac inj_version :=
  repeat match goal with
         | E : version.mkVersion _ _ _ _ _ _ _ _ = version.mkVersion _ _ _ _ _ _ _ _ |- _ =>
             injection E as <- <- <- <- <- <- <- <-
         end.

Lemma NewVersion_flag_count (val : string) (v : version.Version) :
  version.NewVersion val = inr v -> (flag_count v <= 1)%nat.
Proof.
  unfold version.NewVersion. cbv zeta.
  repeat case_match; try done; intros [= <-]; subst;
    unfold version.set_suffix, version.Version_zero in *;
    repeat case_match; simplify_eq; inj_version; cbn; lia.
Qed.

(** ** The claims on [NewVersion] *)

(** C2, as stated, fails on the code: the empty string is shorter than the
    minimum length and fails with [EmptyInput], and ["1.0-foo"], whose part
    before the suffix has two components only, fails with [UnknownSuffix]. *)
Lemma C2_counterexample :
  (len "" < 5
   ∧ version.NewVersion "" = inl version.EmptyInput
   ∧ version.NewVersion "" ≠ inl version.MalformedFormat)
  ∧ (Split (TrimPrefix "1.0-foo" "v") "-" = ["1.0"; "foo"]
     ∧ length (Split "1.0" ".") ≠ 3%nat
     ∧ version.NewVersion "1.0-foo" = inl (version.UnknownSuffix "foo")
     ∧ version.NewVersion "1.0-foo" ≠ inl version.MalformedFormat).
Proof. repeat split; by vm_compute. Qed.

(** C2, amended: a non-empty input fails with [MalformedFormat] when it is
    shorter than five bytes, when it has more than one ["-"] separator, and
    when, its suffix segment being absent or one of the recognized tokens,
    the part before it does not split into exactly three dot-separated
    components. *)
Theorem C2_NewVersion_malformed (val : string) :
  val ≠ "" ->
  (len val < 5 -> version.NewVersion val = inl version.MalformedFormat)
  ∧ ((2 < length (Split (TrimPrefix val "v") "-"))%nat ->
     version.NewVersion val = inl version.MalformedFormat)
  ∧ (∀ body, Split (TrimPrefix val "v") "-" = [body] ->
       length (Split body ".") ≠ 3%nat ->
       version.NewVersion val = inl version.MalformedFormat)
  ∧ (∀ body T f, Split (TrimPrefix val "v") "-" = [body; T] ->
       (T, f) ∈ suffix_tokens ->
       length (Split body ".") ≠ 3%nat ->
       version.NewVersion val = inl version.MalformedFormat).
Proof.
  intros Hval. apply String.eqb_neq in Hval.
  unfold version.NewVersion. cbv zeta. rewrite Hval.
  split; [|split; [|split]].
  - intros Hlen. by destruct (Z.ltb_spec (len val) 5); [|lia].
  - intros Hsegs. destruct (len val <? 5); [done |].
    by destruct (Z.ltb_spec 2 (Z.of_nat (length (Split (TrimPrefix val "v") "-"))));
      [|lia].
  - intros body Hsplit Hbody. rewrite Hsplit. cbn [length hd].
    destruct (len val <? 5); [done |].
    cbn [Z.of_nat Z.ltb Z.compare Pos.of_succ_nat Pos.compare Pos.compare_cont].
    by destruct (Split body ".") as [|v0 [|v1 [|v2 [|v3 vs]]]].
  - intros body T f Hsplit [Hsuffix _]%suffix_tokens_inv Hbody. rewrite Hsplit.
    cbn [length hd]. rewrite Hsuffix.
    destruct (len val <? 5); [done |].
    cbn [Z.of_nat Z.ltb Z.compare Pos.of_succ_nat Pos.succ Pos.compare
         Pos.compare_cont].
    by destruct (Split body ".") as [|v0 [|v1 [|v2 [|v3 vs]]]].
Qed.

Lemma C2_witness :
  "1.0.0.0-RC" ≠ ""
  ∧ Split (TrimPrefix "1.0.0.0-RC" "v") "-" = ["1.0.0.0"; "RC"]
  ∧ ("RC", RC) ∈ suffix_tokens
  ∧ length (Split "1.0.0.0" ".") ≠ 3%nat
  ∧ version.NewVersion "1.0.0.0-RC" = inl version.MalformedFormat.
Proof.
  assert ("1.0.0.0-RC" ≠ "") as Hne by discriminate.
  assert (("RC", RC) ∈ suffix_tokens) as Hin
    by (unfold suffix_tokens; rewrite !elem_of_cons; tauto).
  assert (length (Split "1.0.0.0" ".") ≠ 3%nat) as Hlen by (vm_compute; discriminate).
  refine (conj Hne (conj eq_refl (conj Hin (conj Hlen _)))).
  exact (proj2 (proj2 (proj2 (C2_NewVersion_malformed "1.0.0.0-RC" Hne)))
           "1.0.0.0" "RC" RC eq_refl Hin Hlen).
Defined.

(** C5, as stated, fails on the code: a component above the largest [int64]
    is rejected by [strconv.ParseInt]. *)
Lemma C5_counterexample :
  version.NewVersion (dotted (decimal 9223372036854775808) (decimal 0) (decimal 0))
  = inl (version.NonNumericComponent "1" "9223372036854775808")
  ∧ version.NewVersion (dotted (decimal 9223372036854775808) (decimal 0) (decimal 0))
    ≠ inr (release 9223372036854775808 0 0).
Proof. split; by vm_compute. Qed.

(** C5, amended: for non-negative integers X, Y, Z that fit [int64],
    written in decimal, [NewVersion] succeeds on ["X.Y.Z"] and on
    ["vX.Y.Z"] with major, minor and micro equal to X, Y, Z and no suffix
    flag set. *)
Theorem C5_NewVersion_release (major minor micro : N) :
  Z.of_N major <= maxInt64 -> Z.of_N minor <= maxInt64 ->
  Z.of_N micro <= maxInt64 ->
  version.NewVersion (dotted (decimal major) (decimal minor) (decimal micro))
  = inr (release (Z.of_N major) (Z.of_N minor) (Z.of_N micro))
  ∧ version.NewVersion
      ("v" +:+ dotted (decimal major) (decimal minor) (decimal micro))
    = inr (release (Z.of_N major) (Z.of_N minor) (Z.of_N micro)).
Proof.
  intros Hmajor Hminor Hmicro.
  assert (∀ pre, pre = "" ∨ pre = "v" ->
            version.NewVersion
              (pre +:+ dotted (decimal major) (decimal minor) (decimal micro) +:+ "")
            = inr (release (Z.of_N major) (Z.of_N minor) (Z.of_N micro))) as Hparse.
  { intros pre Hpre.
    apply (NewVersion_grammar pre "" _ _ _ _ _ _ version.Version_zero);
      auto using decimal_DIGITS, ParseInt_decimal. }
  rewrite append_nil_r in Hparse. split.
  - apply (Hparse ""). by left.
  - apply (Hparse "v"). by right.
Qed.

Lemma C5_witness :
  Z.of_N 2 <= maxInt64 ∧ Z.of_N 5 <= maxInt64 ∧ Z.of_N 1 <= maxInt64
  ∧ version.NewVersion "2.5.1" = inr (release 2 5 1)
  ∧ version.NewVersion "v2.5.1" = inr (release 2 5 1).
Proof.
  assert (Z.of_N 2 <= maxInt64) as H2 by (vm_compute; discriminate).
  assert (Z.of_N 5 <= maxInt64) as H5 by (vm_compute; discriminate).
  assert (Z.of_N 1 <= maxInt64) as H1 by (vm_compute; discriminate).
  exact (conj H2 (conj H5 (conj H1 (C5_NewVersion_release 2 5 1 H2 H5 H1)))).
Defined.

(** C6, as stated, fails on the code: the numeric prefix
    [9223372036854775808.0.0] is well formed for the grammar, and
    [strconv.ParseInt] rejects its first component, which does not fit
    [int64]. *)
Lemma C6_counterexample :
  DIGITS "9223372036854775808" = true ∧ DIGITS "0" = true
  ∧ ("dev", Dev) ∈ suffix_tokens
  ∧ version.NewVersion ("v" +:+ dotted "9223372036854775808" "0" "0" +:+ "-" +:+ "dev")
    = inl (version.NonNumericComponent "1" "9223372036854775808")
  ∧ ∀ v, version.NewVersion
           ("v" +:+ dotted "9223372036854775808" "0" "0" +:+ "-" +:+ "dev")
         ≠ inr v.
Proof.
  split; [done |]. split; [done |].
  split; [unfold suffix_tokens; rewrite !elem_of_cons; tauto |].
  split; [by vm_compute |]. intros v. by vm_compute.
Qed.

(** C6, amended: for every recognized suffix token T and every numeric
    prefix of the grammar whose three components [strconv.ParseInt] accepts,
    that is, fit [int64], [NewVersion] succeeds on ["vX.Y.Z-T"] with exactly
    the flag of T set; and every version a successful parse returns has at
    most one flag set, none when the input has no suffix segment. *)
Theorem C6_NewVersion_suffix_flag (xs ys zs : string) (x y z : Z)
    (T : string) (f : Flag) :
  DIGITS xs = true -> DIGITS ys = true -> DIGITS zs = true ->
  ParseInt xs = Some x -> ParseInt ys = Some y -> ParseInt zs = Some z ->
  (T, f) ∈ suffix_tokens ->
  version.NewVersion ("v" +:+ dotted xs ys zs +:+ "-" +:+ T) = inr (flagged x y z f)
  ∧ flag_count (flagged x y z f) = 1%nat
  ∧ (∀ val v, version.NewVersion val = inr v -> (flag_count v <= 1)%nat)
  ∧ (∀ val v, version.NewVersion val = inr v ->
       length (Split (TrimPrefix val "v") "-") = 1%nat -> flag_count v = 0%nat).
Proof.
  intros Hx Hy Hz Px Py Pz [Hsuffix HT]%suffix_tokens_inv.
  split; [|split; [|split]].
  - apply (NewVersion_grammar "v" (String "-" T) xs ys zs x y z (flagged 0 0 0 f));
      eauto 10.
  - by destruct f.
  - apply NewVersion_flag_count.
  - intros val v. unfold version.NewVersion. cbv zeta.
    destruct (Split (TrimPrefix val "v") "-") as [|s0 [|s1 segs]]; [| |done];
      repeat case_match; try done; intros [= <-] _; unfold version.Version_zero in *;
      inj_version; done.
Qed.

Lemma C6_witness :
  DIGITS "0" = true ∧ DIGITS "5" = true ∧ DIGITS "1" = true
  ∧ ParseInt "0" = Some 0 ∧ ParseInt "5" = Some 5 ∧ ParseInt "1" = Some 1
  ∧ ("beta", Beta) ∈ suffix_tokens
  ∧ version.NewVersion "v0.5.1-beta" = inr (flagged 0 5 1 Beta).
Proof.
  assert (("beta", Beta) ∈ suffix_tokens) as Hin
    by (unfold suffix_tokens; rewrite !elem_of_cons; tauto).
  refine (conj eq_refl (conj eq_refl (conj eq_refl
            (conj eq_refl (conj eq_refl (conj eq_refl (conj Hin _))))))).
  exact (proj1 (C6_NewVersion_suffix_flag "0" "5" "1" 0 5 1 "beta" Beta
                  eq_refl eq_refl eq_refl eq_refl eq_refl eq_refl Hin)).
Defined.

(** ** The PSR-4 lookup *)

Import composer.

(** The loop of [Autoload.Psr4PathForNamespace], from any pair it has
    reached: either no entry replaces the pair, and every entry whose key is
    a prefix of the query has a key no longer than the one found so far; or
    the loop ends on an entry of the table whose key is a prefix of the
    query, longer than the one it started from and at least as long as the
    key of every entry that is a prefix. *)
Lemma psr4_loop_spec (query : string) (entries : list (string * string))
    (found : string * string) :
  let r := foldl (psr4_step query) found entries in
  (r = found
   ∧ ∀ k p, (k, p) ∈ entries -> HasPrefix query k = true ->
       (String.length k <= String.length found.1)%nat)
  ∨ (r ∈ entries ∧ HasPrefix query r.1 = true
     ∧ (String.length found.1 < String.length r.1)%nat
     ∧ ∀ k p, (k, p) ∈ entries -> HasPrefix query k = true ->
         (String.length k <= String.length r.1)%nat).
Proof.
  revert found. induction entries as [|[k0 p0] entries IH]; intros [kf pf]; cbn zeta.
  - left. split; [done |]. by intros k p ?%elem_of_nil.
  - cbn [foldl]. unfold psr4_step at 2 4 6 8 10.
    destruct (HasPrefix query k0) eqn:Hpre;
      [destruct (Z.ltb_spec (len kf) (len k0)) as [Hlt|Hge]; unfold len in *|].
    + specialize (IH (k0, p0)). cbn zeta in IH. cbn [fst] in *.
      destruct IH as [[-> Hall] | (Hin & Hr & Hlen & Hall)]; right.
      * split; [by left |]. split; [done |]. split; [cbn; lia |].
        intros k p [[= -> ->] | Hin]%elem_of_cons Hk; cbn; [lia | by eapply Hall].
      * split; [by right |]. split; [done |]. split; [lia |].
        intros k p [[= -> ->] | Hin']%elem_of_cons Hk; [lia | by eapply Hall].
    + specialize (IH (kf, pf)). cbn zeta in IH. cbn [fst] in *.
      destruct IH as [[-> Hall] | (Hin & Hr & Hlen & Hall)]; [left | right].
      * split; [done |].
        intros k p [[= -> ->] | Hin]%elem_of_cons Hk; cbn; [lia | by eapply Hall].
      * split; [by right |]. split; [done |]. split; [lia |].
        intros k p [[= -> ->] | Hin']%elem_of_cons Hk; [lia | by eapply Hall].
    + specialize (IH (kf, pf)). cbn zeta in IH. cbn [fst] in *.
      destruct IH as [[-> Hall] | (Hin & Hr & Hlen & Hall)]; [left | right].
      * split; [done |].
        intros k p [[= -> ->] | Hin]%elem_of_cons Hk; cbn; [congruence | by eapply Hall].
      * split; [by right |]. split; [done |]. split; [lia |].
        intros k p [[= -> ->] | Hin']%elem_of_cons Hk; [congruence | by eapply Hall].
Qed.

(** The loop over any enumeration of a table ends either where it started,
    no candidate existing, or on the longest candidate and its path. *)
Lemma psr4_loop_table (table : gmap string string) (query : string)
    (order : list (string * string)) :
  order ≡ₚ map_to_list table ->
  let r := foldl (psr4_step query) ("", "") order in
  (r = ("", "") ∧ ∀ key, ¬ candidate table query key)
  ∨ (longest_among (candidate table query) r.1 ∧ table !! r.1 = Some r.2).
Proof.
  intros Hperm.
  assert (∀ k p, (k, p) ∈ order ↔ table !! k = Some p) as Hin.
  { intros k p. rewrite Hperm. apply elem_of_map_to_list. }
  cbn zeta.
  destruct (psr4_loop_spec query order ("", "")) as [[Hr Hall] | (Hr & Hpre & Hlen & Hall)].
  - left. split; [done |]. intros key [Hne [[p Hp] Hkey]].
    apply Hin in Hp. specialize (Hall key p Hp Hkey).
    destruct key; [by destruct Hne | simpl in Hall; lia].
  - right. destruct (foldl (psr4_step query) ("", "") order) as [k p].
    cbn [fst snd] in *. apply Hin in Hr. split; [|done].
    split.
    + split; [intros ->; simpl in Hlen; lia | split; [by eexists | done]].
    + intros key' [_ [[p' Hp'] Hkey']]. apply Hin in Hp'. by eapply Hall.
Qed.

Lemma longest_among_unique (table : gmap string string) (query k1 k2 : string)
    (P : string -> Prop) :
  (∀ k, P k -> HasPrefix query k = true) ->
  longest_among P k1 -> longest_among P k2 -> k1 = k2.
Proof.
  intros HP [H1 Hmax1] [H2 Hmax2].
  apply (HasPrefix_length_inj query); [by apply HP | by apply HP |].
  specialize (Hmax1 k2 H2). specialize (Hmax2 k1 H1). lia.
Qed.

Lemma psr4_range_found (table : gmap string string) (name : string)
    (order : list (string * string)) (key path : string) :
  order ≡ₚ map_to_list table ->
  longest_among (candidate table (name +:+ "\")) key ->
  table !! key = Some path ->
  Psr4PathForNamespace_range order name
  = if String.eqb path "" then ("", false) else (path, true).
Proof.
  intros Hperm Hkey Hpath. unfold Psr4PathForNamespace_range.
  destruct (psr4_loop_table table (name +:+ "\") order Hperm)
    as [[_ Hnone] | [Hlong Hr]].
  - destruct Hkey as [Hcand _]. by destruct (Hnone key).
  - destruct (foldl (psr4_step (name +:+ "\")) ("", "") order) as [k p].
    cbn [fst snd] in *.
    assert (k = key) as ->.
    { eapply (longest_among_unique table (name +:+ "\")); [|done..].
      by intros k' [_ [_ ?]]. }
    by simplify_eq.
Qed.

Lemma psr4_range_none (table : gmap string string) (name : string)
    (order : list (string * string)) :
  order ≡ₚ map_to_list table ->
  (∀ key, ¬ candidate table (name +:+ "\") key) ->
  Psr4PathForNamespace_range order name = ("", false).
Proof.
  intros Hperm Hnone. unfold Psr4PathForNamespace_range.
  destruct (psr4_loop_table table (name +:+ "\") order Hperm)
    as [[-> _] | [[Hcand _] _]]; [done |].
  by destruct (Hnone _ Hcand).
Qed.

(** C1, as stated, fails on the code.  A key that maps to the empty path is
    the longest prefix of the query, and the lookup reports not-found; the
    empty key is the only prefix of the query, and its path is not
    returned. *)
Lemma C1_counterexample :
  (longest_among (prefix_key {["My\" := ""]} ("My" +:+ "\")) "My\"
   ∧ ({["My\" := ""]} : gmap string string) !! "My\" = Some ""
   ∧ Autoload_Psr4PathForNamespace (mkAutoload {["My\" := ""]} []) "My"
     ≠ ("", true))
  ∧ (longest_among (prefix_key {["" := "src"]} ("App" +:+ "\")) ""
     ∧ ({["" := "src"]} : gmap string string) !! "" = Some "src"
     ∧ Autoload_Psr4PathForNamespace (mkAutoload {["" := "src"]} []) "App"
       = ("", false)
     ∧ Autoload_Psr4PathForNamespace (mkAutoload {["" := "src"]} []) "App"
       ≠ ("src", true)).
Proof.
  split; [split; [|split] | split; [|split; [|split]]]; try by vm_compute.
  - split; [split; [by eexists | done] |].
    intros key' [[p Hp] _]. by apply lookup_singleton_Some in Hp as [<- _].
  - split; [split; [by eexists | done] |].
    intros key' [[p Hp] _]. by apply lookup_singleton_Some in Hp as [<- _].
Qed.

(** On a table without the empty key the keys the loop can select are the
    keys that are a prefix of the query. *)
Lemma candidate_prefix_key (table : gmap string string) (query key : string) :
  table !! "" = None ->
  candidate table query key ↔ prefix_key table query key.
Proof.
  intros Hempty. split; [by intros [_ ?] |].
  intros Hkey. split; [|done].
  intros ->. destruct Hkey as [[p Hp] _]. congruence.
Qed.

Lemma longest_candidate_prefix_key (table : gmap string string)
    (query key : string) :
  table !! "" = None ->
  longest_among (prefix_key table query) key ->
  longest_among (candidate table query) key.
Proof.
  intros Hempty [Hkey Hmax]. split; [by apply candidate_prefix_key |].
  intros key' [_ Hkey']. by apply Hmax.
Qed.

(** C1, amended: the lookup appends the separator to the query and takes,
    among all keys of the table that are a prefix of the augmented query,
    the longest one; it returns that key's path when the key and the path
    are not empty, and not-found when the path is empty, when that key is
    the empty key, or when no key is a prefix.  The result is the same in
    whatever order the entries of the table are visited. *)
Theorem C1_Psr4PathForNamespace_longest_prefix (table : gmap string string)
    (name : string) (order : list (string * string)) :
  order ≡ₚ map_to_list table ->
  (∀ key path,
     key ≠ "" ->
     longest_among (prefix_key table (name +:+ "\")) key ->
     table !! key = Some path ->
     Psr4PathForNamespace_range order name
     = if String.eqb path "" then ("", false) else (path, true))
  ∧ (longest_among (prefix_key table (name +:+ "\")) "" ->
     Psr4PathForNamespace_range order name = ("", false))
  ∧ ((∀ key, ¬ prefix_key table (name +:+ "\") key) ->
     Psr4PathForNamespace_range order name = ("", false))
  ∧ (∀ order', order' ≡ₚ map_to_list table ->
       Psr4PathForNamespace_range order' name
       = Psr4PathForNamespace_range order name).
Proof.
  intros Hperm. split; [|split; [|split]].
  - intros key path Hne [Hkey Hmax] Hpath.
    apply (psr4_range_found table name order key path Hperm); [|done].
    split; [done |]. intros key' [_ Hkey']. by apply Hmax.
  - intros [_ Hmax]. apply (psr4_range_none table); [done |].
    intros key [Hne Hkey]. specialize (Hmax key Hkey).
    destruct key; [by destruct Hne | simpl in Hmax; lia].
  - intros Hnone. apply (psr4_range_none table); [done |].
    intros key [_ Hkey]. by apply (Hnone key).
  - intros order' Hperm'.
    destruct (psr4_loop_table table (name +:+ "\") order Hperm)
      as [[_ Hnone] | [Hlong Hr]].
    + by rewrite !(psr4_range_none table).
    + by rewrite (psr4_range_found table name order' _ _ Hperm' Hlong Hr),
        (psr4_range_found table name order _ _ Hperm Hlong Hr).
Qed.

Lemma C1_witness :
  [("My\", "a"); ("My\Core\", "b")] ≡ₚ map_to_list table_overlap
  ∧ "My\Core\" ≠ ""
  ∧ longest_among (prefix_key table_overlap ("My\Core\Utils" +:+ "\")) "My\Core\"
  ∧ prefix_key table_overlap ("My\Core\Utils" +:+ "\") "My\"
  ∧ table_overlap !! "My\Core\" = Some "b"
  ∧ Psr4PathForNamespace_range [("My\", "a"); ("My\Core\", "b")] "My\Core\Utils"
    = ("b", true)
  ∧ Psr4PathForNamespace_range [("My\Core\", "b"); ("My\", "a")] "My\Core\Utils"
    = Psr4PathForNamespace_range [("My\", "a"); ("My\Core\", "b")] "My\Core\Utils".
Proof.
  assert (map_to_list table_overlap = [("My\Core\", "b"); ("My\", "a")])
    as Hlist by reflexivity.
  assert ([("My\", "a"); ("My\Core\", "b")] ≡ₚ map_to_list table_overlap)
    as Hperm by (rewrite Hlist; apply perm_swap).
  assert ([("My\Core\", "b"); ("My\", "a")] ≡ₚ map_to_list table_overlap)
    as Hperm' by (by rewrite Hlist).
  assert ("My\Core\" ≠ "") as Hne by discriminate.
  assert (longest_among (prefix_key table_overlap ("My\Core\Utils" +:+ "\"))
            "My\Core\") as Hlong.
  { split; [split; [by eexists | done] |].
    intros key' [[p Hp] _]. unfold table_overlap in Hp.
    apply lookup_insert_Some in Hp as [[<- _] | [_ Hp]]; [simpl; lia |].
    by apply lookup_singleton_Some in Hp as [<- _]. }
  pose proof (C1_Psr4PathForNamespace_longest_prefix table_overlap "My\Core\Utils"
                [("My\", "a"); ("My\Core\", "b")] Hperm) as (Hfound & _ & _ & Horder).
  refine (conj Hperm (conj Hne (conj Hlong
            (conj (conj (ex_intro _ "a" eq_refl) eq_refl) (conj eq_refl _))))).
  exact (conj (Hfound "My\Core\" "b" Hne Hlong eq_refl) (Horder _ Hperm')).
Defined.

(** C10: when the longest key that is a prefix of the augmented query maps
    to the empty string, the lookup reports not-found, whatever shorter
    keys are prefixes too and whatever they map to. *)
Theorem C10_empty_path_not_found (table : gmap string string) (name : string)
    (order : list (string * string)) (key : string) :
  order ≡ₚ map_to_list table ->
  longest_among (prefix_key table (name +:+ "\")) key ->
  table !! key = Some "" ->
  Psr4PathForNamespace_range order name = ("", false).
Proof.
  intros Hperm [Hkey Hmax] Hpath.
  destruct (decide (key = "")) as [-> | Hne].
  - apply (psr4_range_none table); [done |].
    intros key' [Hne' Hkey']. specialize (Hmax key' Hkey').
    destruct key'; [by destruct Hne' | simpl in Hmax; lia].
  - rewrite (psr4_range_found table name order key "" Hperm); [done | | done].
    split; [done |]. intros key' [_ Hkey']. by apply Hmax.
Qed.

Lemma C10_witness :
  map_to_list table_shadowed ≡ₚ map_to_list table_shadowed
  ∧ longest_among (prefix_key table_shadowed ("My\Core\Utils" +:+ "\")) "My\Core\"
  ∧ table_shadowed !! "My\Core\" = Some ""
  ∧ prefix_key table_shadowed ("My\Core\Utils" +:+ "\") "My\"
  ∧ table_shadowed !! "My\" = Some "a"
  ∧ Psr4PathForNamespace_range (map_to_list table_shadowed) "My\Core\Utils"
    = ("", false).
Proof.
  assert (longest_among (prefix_key table_shadowed ("My\Core\Utils" +:+ "\"))
            "My\Core\") as Hlong.
  { split; [split; [by eexists | done] |].
    intros key' [[p Hp] _]. unfold table_shadowed in Hp.
    apply lookup_insert_Some in Hp as [[<- _] | [_ Hp]]; [simpl; lia |].
    by apply lookup_singleton_Some in Hp as [<- _]. }
  refine (conj (reflexivity _) (conj Hlong (conj eq_refl
            (conj (conj (ex_intro _ "a" eq_refl) eq_refl) (conj eq_refl _))))).
  exact (C10_empty_path_not_found table_shadowed "My\Core\Utils"
           (map_to_list table_shadowed) "My\Core\" (reflexivity _) Hlong eq_refl).
Defined.

(** C7: the manifest-level lookup returns the hit of the primary table; if
    the primary lookup misses, the hit of the dev table; if both miss,
    not-found.  A hit is returned as the base name of the manifest's
    directory, ["/"], and the path found in the table: in particular the
    non-empty path of the longest key of the primary table that is a prefix
    of the augmented query. *)
Theorem C7_Config_Psr4PathForNamespace `{Library} (c : Config) (name : string) :
  let dir := filepath_Base (RootDir (data c)) in
  let primary := Autoload_Psr4PathForNamespace (Autoload_ (data c)) name in
  let dev := Autoload_Psr4PathForNamespace (AutoloadDev (data c)) name in
  (∀ path, primary = (path, true) ->
     Config_Psr4PathForNamespace c name = (dir +:+ "/" +:+ path, true))
  ∧ (∀ path, primary.2 = false -> dev = (path, true) ->
       Config_Psr4PathForNamespace c name = (dir +:+ "/" +:+ path, true))
  ∧ (primary.2 = false -> dev.2 = false ->
     Config_Psr4PathForNamespace c name = ("", false))
  ∧ (∀ key path,
       Psr4 (Autoload_ (data c)) !! "" = None ->
       longest_among (prefix_key (Psr4 (Autoload_ (data c))) (name +:+ "\")) key ->
       Psr4 (Autoload_ (data c)) !! key = Some path -> path ≠ "" ->
       Config_Psr4PathForNamespace c name = (dir +:+ "/" +:+ path, true)).
Proof.
  cbn zeta. unfold Config_Psr4PathForNamespace.
  split; [|split; [|split]].
  - by intros path ->.
  - intros path Hmiss ->.
    by destruct (Autoload_Psr4PathForNamespace (Autoload_ (data c)) name)
      as [p []]; simplify_eq/=.
  - intros Hmiss Hmiss'.
    destruct (Autoload_Psr4PathForNamespace (Autoload_ (data c)) name) as [p []];
      simplify_eq/=.
    by destruct (Autoload_Psr4PathForNamespace (AutoloadDev (data c)) name)
      as [p' []]; simplify_eq/=.
  - intros key path Hempty Hlong%longest_candidate_prefix_key Hpath Hne; [|done].
    unfold Autoload_Psr4PathForNamespace at 1.
    rewrite (psr4_range_found _ name _ key path (reflexivity _) Hlong Hpath).
    by apply String.eqb_neq in Hne as ->.
Qed.

(** ** Local repositories *)

(** C9: [ResolveUrl] is idempotent; an entry that is resolved already, or
    whose type is not ["path"], is returned unchanged; an unresolved entry
    of type ["path"] gets its resolved flag set and its URL, and nothing
    else, replaced by the cleaned, slash-normalized join of the base and
    the URL. *)
Theorem C9_ResolveUrl_idempotent `{Library} (e : ConfigRepo) (base : string) :
  ResolveUrl (ResolveUrl e base) base = ResolveUrl e base
  ∧ (Resolved e = true ∨ Type_ e ≠ "path" -> ResolveUrl e base = e)
  ∧ (Resolved e = false -> Type_ e = "path" ->
     ResolveUrl e base
     = mkConfigRepo (Type_ e)
         (filepath_ToSlash (filepath_Clean (filepath_Join base (Url e)))) true).
Proof.
  destruct e as [type url resolved]. unfold ResolveUrl. cbn [Resolved Type_ Url].
  split; [|split].
  - destruct resolved; [done |].
    destruct (String.eqb type "path") eqn:Htype; cbn; by rewrite ?Htype.
  - intros [-> | Hne]; [done |].
    destruct resolved; [done |].
    by apply String.eqb_neq in Hne as ->.
  - by intros -> ->.
Qed.

Lemma C9_witness :
  Resolved (mkConfigRepo "path" "../lib" false) = false
  ∧ Type_ (mkConfigRepo "path" "../lib" false) = "path"
  ∧ @ResolveUrl sample_library (mkConfigRepo "path" "../lib" false) "/proj/app"
    = mkConfigRepo "path" "/proj/lib" true
  ∧ @ResolveUrl sample_library
      (@ResolveUrl sample_library (mkConfigRepo "path" "../lib" false) "/proj/app")
      "/proj/app"
    = @ResolveUrl sample_library (mkConfigRepo "path" "../lib" false) "/proj/app".
Proof.
  refine (conj eq_refl (conj eq_refl (conj _ _))).
  - exact (proj2 (proj2 (@C9_ResolveUrl_idempotent sample_library
                           (mkConfigRepo "path" "../lib" false) "/proj/app"))
             eq_refl eq_refl).
  - exact (proj1 (@C9_ResolveUrl_idempotent sample_library
                    (mkConfigRepo "path" "../lib" false) "/proj/app")).
Defined.

(** ** The loader and the rendering of its errors *)

(** A report that carries its config renders one line per finding, each
    starting with the path of the config. *)
Lemma ConfigErrors_Error_lines (config : ConfigData) (errors : list ConfigError) :
  ConfigErrors_Error (mkConfigErrors (Some config) errors)
  = Some (String.concat ""
            (map (fun e => Sprintf_config_line (Path config) (ConfigError_Error e))
                 errors)).
Proof.
  unfold ConfigErrors_Error. cbn [Config_ Errors].
  assert (∀ res : string,
            foldl (fun (res : option string) (e : ConfigError) =>
                     match res with
                     | Some res =>
                         Some (res +:+ Sprintf_config_line (Path config)
                                         (ConfigError_Error e))
                     | None => None
                     end) (Some res) errors
            = Some (res +:+ String.concat ""
                      (map (fun e => Sprintf_config_line (Path config)
                                       (ConfigError_Error e)) errors))) as Hgen.
  { induction errors as [|e errors IH]; intros res.
    - cbn. by rewrite append_nil_r.
    - cbn [foldl map]. rewrite IH. f_equal.
      rewrite append_assoc. f_equal.
      destruct errors as [|e' errors]; [by rewrite append_nil_r | done]. }
  exact (Hgen "").
Qed.

(** C3 fails on the code: the error list the loader returns when the JSON
    decoding fails is built by [NewConfigErrors], which leaves its [Config]
    nil, and it holds one finding, so rendering it dereferences the nil
    pointer in the first iteration of the loop of [Error]. *)
Theorem C3_decode_error_render_panics `{Library} (bytes : list Byte.byte)
    (configPath err : string) :
  json_Unmarshal bytes = inl err ->
  (NewConfigFromData bytes configPath).2
  = Some (mkConfigErrors None [mkConfigError err true])
  ∧ ConfigErrors_Error (mkConfigErrors None [mkConfigError err true]) = None.
Proof.
  intros Herr. unfold NewConfigFromData. by rewrite Herr.
Qed.

Lemma C3_witness :
  @json_Unmarshal sample_library [Byte.x7b] = inl "unexpected end of JSON input"
  ∧ (@NewConfigFromData sample_library [Byte.x7b] "/proj/app/composer.json").2
    = Some (mkConfigErrors None
              [mkConfigError "unexpected end of JSON input" true])
  ∧ ConfigErrors_Error
      (mkConfigErrors None [mkConfigError "unexpected end of JSON input" true])
    = None.
Proof.
  exact (conj eq_refl
           (@C3_decode_error_render_panics sample_library [Byte.x7b]
              "/proj/app/composer.json" "unexpected end of JSON input" eq_refl)).
Defined.

(** C8: when the bytes decode and the version string does not parse, the
    loader returns the decoded fields unchanged, no version, the absolute
    path and its directory, and an error list of exactly one finding, which
    is not critical. *)
Theorem C8_version_failure_not_fatal `{Library} (bytes : list Byte.byte)
    (configPath : string) (decoded : ConfigData) (err : string) :
  json_Unmarshal bytes = inr decoded ->
  version.NewVersion (RawVersion decoded) = inl err ->
  let config := data (NewConfigFromData bytes configPath).1 in
  Name config = Name decoded
  ∧ Description config = Description decoded
  ∧ RawVersion config = RawVersion decoded
  ∧ ConfigType config = ConfigType decoded
  ∧ Require config = Require decoded
  ∧ RequireDev config = RequireDev decoded
  ∧ Reps config = Reps decoded
  ∧ Autoload_ config = Autoload_ decoded
  ∧ AutoloadDev config = AutoloadDev decoded
  ∧ Version config = None
  ∧ Path config = filepath_Abs configPath
  ∧ RootDir config = filepath_Dir (filepath_Abs configPath)
  ∧ ∃ finding,
      (NewConfigFromData bytes configPath).2
      = Some (mkConfigErrors (Some config) [finding])
      ∧ Critical finding = false ∧ Msg finding = err.
Proof.
  intros Hdecoded Hversion. unfold NewConfigFromData.
  rewrite Hdecoded, Hversion. cbn.
  repeat split. by eexists.
Qed.

Lemma C8_witness :
  @json_Unmarshal sample_library [Byte.x7b; Byte.x7d] = inr ConfigData_zero
  ∧ version.NewVersion (RawVersion ConfigData_zero) = inl version.EmptyInput
  ∧ Path (data (@NewConfigFromData sample_library [Byte.x7b; Byte.x7d]
                  "/proj/app/composer.json").1)
    = "/proj/app/composer.json"
  ∧ RootDir (data (@NewConfigFromData sample_library [Byte.x7b; Byte.x7d]
                     "/proj/app/composer.json").1)
    = "/proj/app"
  ∧ ∃ finding,
      (@NewConfigFromData sample_library [Byte.x7b; Byte.x7d]
         "/proj/app/composer.json").2
      = Some (mkConfigErrors
                (Some (data (@NewConfigFromData sample_library
                               [Byte.x7b; Byte.x7d] "/proj/app/composer.json").1))
                [finding])
      ∧ Critical finding = false ∧ Msg finding = version.EmptyInput.
Proof.
  pose proof (@C8_version_failure_not_fatal sample_library [Byte.x7b; Byte.x7d]
                "/proj/app/composer.json" ConfigData_zero version.EmptyInput
                eq_refl eq_refl) as Hload.
  cbn zeta in Hload.
  destruct Hload as (_ & _ & _ & _ & _ & _ & _ & _ & _ & _ & Hpath & Hroot & Hreport).
  exact (conj eq_refl (conj eq_refl (conj Hpath (conj Hroot Hreport)))).
Defined.

(** ** Custom checks *)

(** The loop of [CheckConfig] from any state: it calls the remaining checks
    by increasing index and appends their findings in that order. *)
Lemma CheckConfig_loop_spec (checks : list Check) (i : nat) (st : run) :
  run_calls (CheckConfig_loop checks i st)
  = run_calls st ++ seq i (length checks)
  ∧ run_errors (CheckConfig_loop checks i st)
    = run_errors st ++ omap id (check_outcomes checks (run_config st)).
Proof.
  revert i st. induction checks as [|check checks IH]; intros i st.
  - cbn. by rewrite !app_nil_r.
  - cbn [CheckConfig_loop check_outcomes length seq].
    destruct (check (run_config st)) as [config err].
    destruct (IH (S i) (mkRun config
                          match err with
                          | Some e => run_errors st ++ [e]
                          | None => run_errors st
                          end (run_calls st ++ [i]))) as [-> ->].
    cbn [run_calls run_errors run_config]. split.
    + by rewrite <- app_assoc.
    + destruct err as [e|]; cbn [omap id]; [by rewrite <- app_assoc | done].
Qed.

Lemma check_outcomes_length (checks : list Check) (config : ConfigData) :
  length (check_outcomes checks config) = length checks.
Proof.
  revert config. induction checks as [|check checks IH]; intros config; [done |].
  cbn [check_outcomes]. destruct (check config) as [config' err].
  cbn [length]. by rewrite IH.
Qed.

(** C4: [CheckConfig] calls every registered check exactly once, in
    registration order; each check yields one outcome, whatever the earlier
    ones returned; the findings are the non-nil outcomes in that order; the
    result is nil exactly when there is no finding, and otherwise a report
    that holds exactly the findings. *)
Theorem C4_CheckConfig_runs_all (c : Config) :
  let outcomes := check_outcomes (Checks c) (data c) in
  let findings := omap id outcomes in
  (CheckConfig c).1.1 = seq 0 (length (Checks c))
  ∧ length outcomes = length (Checks c)
  ∧ ((CheckConfig c).2 = None ↔ findings = [])
  ∧ (∀ report, (CheckConfig c).2 = Some report -> Errors report = findings)
  ∧ (findings ≠ [] -> ∃ report, (CheckConfig c).2 = Some report).
Proof.
  cbn zeta. unfold CheckConfig.
  destruct (CheckConfig_loop_spec (Checks c) 0 (mkRun (data c) [] []))
    as [Hcalls Herrors].
  cbn [run_calls run_errors run_config app] in Hcalls, Herrors.
  cbn [fst snd]. unfold Len. cbn [Errors]. rewrite Herrors.
  split; [done |]. split; [apply check_outcomes_length |].
  destruct (omap id (check_outcomes (Checks c) (data c))) as [|e findings];
    cbn [length Z.of_nat Z.eqb].
  - split; [done |]. split; [done |]. by intros [].
  - split; [by split |]. split; [by intros report [= <-] |]. by eexists.
Qed.

(** Two checks, the first of which reports a critical finding: both run,
    and the report holds both findings in registration order. *)
Example CheckConfig_no_short_circuit :
  let c := AddCheck (AddCheck (AddCheck Config_zero check_name_prefix) check_pass)
             check_description in
  (CheckConfig c).1.1 = [0; 1; 2]%nat
  ∧ (CheckConfig c).2
    = Some (mkConfigErrors (Some ConfigData_zero)
              [mkConfigError "name must starts with prefix my/" true;
               mkConfigError "description is empty" false])
  ∧ (CheckConfig Config_zero).2 = None.
Proof. by vm_compute. Qed.

(* ===================================================================== *)
(** * Part III: further properties of the code                            *)
(* ===================================================================== *)

(** ** [strings.Split] and [strconv.ParseInt] *)

Lemma Split_segments (P : ascii -> bool) (sep : ascii) (s : string) :
  all_bytes P s = true ->
  Forall (fun segment => all_bytes P segment = true) (Split s sep).
Proof.
  induction s as [|c s IH]; cbn [Split all_bytes].
  - intros _. by constructor.
  - intros [Hc Hs]%andb_true_iff. specialize (IH Hs).
    destruct (Ascii.eqb c sep).
    + by constructor.
    + destruct (Split s sep) as [|segment segments].
      * repeat constructor. cbn [all_bytes]. by rewrite Hc.
      * inversion IH as [|? ? Hseg Hsegs]; subst.
        constructor; [|done]. cbn [all_bytes]. by rewrite Hc, Hseg.
Qed.

Lemma Split_segments_no_sep (sep : ascii) (s : string) :
  Forall (fun segment => all_bytes (fun c => negb (Ascii.eqb c sep)) segment = true)
    (Split s sep).
Proof.
  induction s as [|c s IH]; cbn [Split]; [by repeat constructor |].
  destruct (Ascii.eqb c sep) eqn:Hc; [by constructor |].
  destruct (Split s sep) as [|segment segments].
  - repeat constructor. cbn [all_bytes]. by rewrite Hc.
  - inversion IH as [|? ? Hseg Hsegs]; subst.
    constructor; [|done]. cbn [all_bytes]. by rewrite Hc, Hseg.
Qed.

Lemma ParseUint_loop_ge (s : string) (n m : Z) :
  0 <= n -> ParseUint_loop s n = Some m -> n <= m.
Proof.
  revert n. induction s as [|c s IH]; intros n Hn; cbn [ParseUint_loop].
  - intros [= <-]. lia.
  - destruct (digit_val c) as [d|] eqn:Hd; [|done].
    pose proof (digit_val_range _ _ Hd).
    destruct (maxUint64 / 10 + 1 <=? n); [done |].
    destruct (maxUint64 <? n * 10 + d); [done |].
    intros Hm%IH; lia.
Qed.

(** What [ParseInt] returns fits [int64], and is not negative unless the
    string has a minus sign. *)
Lemma ParseInt_range (s : string) (z : Z) :
  ParseInt s = Some z -> - 2 ^ 63 <= z <= maxInt64.
Proof.
  unfold ParseInt, ParseUint, maxInt64. destruct s as [|c s]; [done |].
  destruct (Ascii.eqb c "+"); [|destruct (Ascii.eqb c "-")];
    cbn [negb andb];
    repeat match goal with
           | |- context [match ?t with EmptyString => _ | String _ _ => _ end] =>
               destruct t eqn:?; [done |]
           | |- context [ParseUint_loop ?t 0] =>
               destruct (ParseUint_loop t 0) as [un|] eqn:Hun; [|done];
               apply ParseUint_loop_ge in Hun; [|lia]
           end;
    repeat case_match; try done; intros [= <-]; lia.
Qed.

Lemma ParseInt_nonneg (s : string) (z : Z) :
  all_bytes (fun c => negb (Ascii.eqb c "-")) s = true ->
  ParseInt s = Some z -> 0 <= z.
Proof.
  unfold ParseInt, ParseUint. destruct s as [|c s]; [done |].
  cbn [all_bytes]. intros [Hc _]%andb_true_iff. apply negb_true_iff in Hc.
  rewrite Hc.
  destruct (Ascii.eqb c "+");
    repeat match goal with
           | |- context [match ?t with EmptyString => _ | String _ _ => _ end] =>
               destruct t eqn:?; [done |]
           | |- context [ParseUint_loop ?t 0] =>
               destruct (ParseUint_loop t 0) as [un|] eqn:Hun; [|done];
               apply ParseUint_loop_ge in Hun; [|lia]
           end;
    cbn [negb andb]; repeat case_match; try done; intros [= <-]; lia.
Qed.

(** X1: the segments [strings.Split] returns, joined again by the
    separator, give back the string; there is at least one segment, and no
    segment contains the separator. *)
Theorem X1_Split_concat (sep : ascii) (s : string) :
  String.concat (String sep "") (Split s sep) = s
  ∧ Split s sep ≠ []
  ∧ Forall (fun segment => all_bytes (fun c => negb (Ascii.eqb c sep)) segment = true)
      (Split s sep).
Proof.
  split; [|split; [apply Split_nonempty | apply Split_segments_no_sep]].
  induction s as [|c s IH]; [done |]. cbn [Split].
  pose proof (Split_nonempty sep s) as Hne.
  destruct (Ascii.eqb_spec c sep) as [-> | _].
  - destruct (Split s sep) as [|segment segments]; [done |].
    cbn [String.concat] in *. by rewrite IH.
  - destruct (Split s sep) as [|segment segments]; [done |].
    destruct segments as [|segment' segments]; cbn [String.concat] in *.
    + by rewrite IH.
    + rewrite append_cons. by rewrite IH.
Qed.

Lemma ParseUint_loop_overflow (d : Decimal.uint) (n : Z) :
  0 <= n <= maxUint64 -> maxUint64 < uint_val d n ->
  ParseUint_loop (NilEmpty.string_of_uint d) n = None.
Proof.
  revert n. induction d as [|d IH|d IH|d IH|d IH|d IH|d IH|d IH|d IH|d IH|d IH];
    intros n Hn Hmax; cbn [uint_val NilEmpty.string_of_uint ParseUint_loop] in *;
    [lia | ..];
    match goal with
    | |- context [digit_val ?c] =>
        let v := eval vm_compute in (digit_val c) in
        change (digit_val c) with v; cbv iota beta
    end;
    (destruct (Z.leb_spec (maxUint64 / 10 + 1) n); [done |]);
    match goal with
    | |- context [maxUint64 <? ?n1] =>
        destruct (Z.ltb_spec maxUint64 n1); [done | apply IH; [lia | done]]
    end.
Qed.

Lemma string_of_uint_DIGITS (d : Decimal.uint) :
  d ≠ Decimal.Nil -> DIGITS (NilEmpty.string_of_uint d) = true.
Proof.
  intros Hd. unfold DIGITS. rewrite string_of_uint_digits, andb_true_r.
  by destruct d.
Qed.

(** X2: on a decimal numeral, that is any non-empty sequence of decimal
    digits, leading zeros included, [strconv.ParseInt] returns the value
    when the numeral is bare or has a plus sign and the value is at most
    2^63 - 1, and the negated value when it has a minus sign and the value
    is at most 2^63; beyond these bounds it fails. *)
Theorem X2_ParseInt_decimal_range (d : Decimal.uint) :
  d ≠ Decimal.Nil ->
  let numeral := NilEmpty.string_of_uint d in
  let value := Z.of_N (N.of_uint d) in
  (value <= maxInt64 ->
   ParseInt numeral = Some value ∧ ParseInt (String "+" numeral) = Some value)
  ∧ (value <= 2 ^ 63 -> ParseInt (String "-" numeral) = Some (- value))
  ∧ (maxInt64 < value ->
     ParseInt numeral = None ∧ ParseInt (String "+" numeral) = None)
  ∧ (2 ^ 63 < value -> ParseInt (String "-" numeral) = None).
Proof.
  intros Hd. cbn zeta.
  pose proof (string_of_uint_DIGITS d Hd) as Hdigits.
  destruct (DIGITS_cons _ Hdigits) as (c & s' & Hdec & _ & _).
  assert (Z.of_N (N.of_uint d) = uint_val d 0) as -> by (symmetry; apply uint_val_0).
  pose proof (uint_val_le d 0 (Z.le_refl 0)) as Hnonneg.
  assert (ParseUint (NilEmpty.string_of_uint d)
          = ParseUint_loop (NilEmpty.string_of_uint d) 0) as Huint
    by (by rewrite Hdec).
  assert (ParseInt (String "+" (NilEmpty.string_of_uint d))
          = match ParseUint_loop (NilEmpty.string_of_uint d) 0 with
            | Some un => if 2 ^ 63 <=? un then None else Some un
            | None => None
            end) as Hplus.
  { unfold ParseInt. cbn [Ascii.eqb Bool.eqb negb andb]. rewrite Huint.
    by destruct (ParseUint_loop (NilEmpty.string_of_uint d) 0). }
  assert (ParseInt (String "-" (NilEmpty.string_of_uint d))
          = match ParseUint_loop (NilEmpty.string_of_uint d) 0 with
            | Some un => if 2 ^ 63 <? un then None else Some (- un)
            | None => None
            end) as Hminus.
  { unfold ParseInt. cbn [Ascii.eqb Bool.eqb negb andb]. rewrite Huint.
    by destruct (ParseUint_loop (NilEmpty.string_of_uint d) 0). }
  rewrite Hplus, Hminus, (ParseInt_DIGITS _ Hdigits).
  unfold maxInt64.
  destruct (Z.le_gt_cases (uint_val d 0) maxUint64) as [Hfit | Hover].
  - rewrite ParseUint_loop_uint by done.
    destruct (Z.leb_spec (2 ^ 63) (uint_val d 0)),
      (Z.ltb_spec (2 ^ 63) (uint_val d 0));
      repeat split; intros; try done; lia.
  - rewrite ParseUint_loop_overflow by (unfold maxUint64 in *; lia).
    unfold maxUint64 in Hover. repeat split; intros; try done; lia.
Qed.

Lemma X2_witness :
  Decimal.D0 (Decimal.D0 (Decimal.D7 Decimal.Nil)) ≠ Decimal.Nil
  ∧ Z.of_N (N.of_uint (Decimal.D0 (Decimal.D0 (Decimal.D7 Decimal.Nil))))
    <= maxInt64
  ∧ ParseInt "007" = Some 7
  ∧ ParseInt "+007" = Some 7
  ∧ ParseInt "-007" = Some (- 7).
Proof.
  assert (Decimal.D0 (Decimal.D0 (Decimal.D7 Decimal.Nil)) ≠ Decimal.Nil)
    as Hd by discriminate.
  assert (Z.of_N (N.of_uint (Decimal.D0 (Decimal.D0 (Decimal.D7 Decimal.Nil))))
          <= maxInt64) as Hfit by (vm_compute; discriminate).
  assert (Z.of_N (N.of_uint (Decimal.D0 (Decimal.D0 (Decimal.D7 Decimal.Nil))))
          <= 2 ^ 63) as Hfit' by (vm_compute; discriminate).
  pose proof (X2_ParseInt_decimal_range _ Hd) as (Hplain & Hminus & _).
  exact (conj Hd (conj Hfit (conj (proj1 (Hplain Hfit))
           (conj (proj2 (Hplain Hfit)) (Hminus Hfit'))))).
Defined.

(** ** [NewVersion]: errors and invariants *)

Lemma len_pos_nonempty (val : string) : 5 <= len val -> String.eqb val "" = false.
Proof.
  intros Hlen. apply String.eqb_neq. intros ->.
  unfold len in Hlen. simpl in Hlen. lia.
Qed.

(** What a successful parse went through. *)
Lemma NewVersion_inr_inv (val : string) (v : version.Version) :
  version.NewVersion val = inr v ->
  5 <= len val
  ∧ (length (Split (TrimPrefix val "v") "-") <= 2)%nat
  ∧ ∃ a b c,
      Split (hd "" (Split (TrimPrefix val "v") "-")) "." = [a; b; c]
      ∧ ParseInt a = Some (version.Major v)
      ∧ ParseInt b = Some (version.Minor v)
      ∧ ParseInt c = Some (version.Micro v).
Proof.
  unfold version.NewVersion. cbv zeta.
  destruct (String.eqb val ""); [done |].
  destruct (Z.ltb_spec (len val) 5); [done |].
  destruct (Z.ltb_spec 2 (Z.of_nat (length (Split (TrimPrefix val "v") "-"))));
    [done |].
  intros Hparse. split; [done |]. split; [lia |].
  destruct (match Split (TrimPrefix val "v") "-" with
            | [_; suffix] => version.set_suffix version.Version_zero suffix
            | _ => inr version.Version_zero
            end) as [err | v0]; [done |].
  destruct (Split (hd "" (Split (TrimPrefix val "v") "-")) ".")
    as [|a [|b [|c [|d segments]]]]; try done.
  exists a, b, c. split; [done |].
  destruct (ParseInt a) as [major|]; [|done].
  destruct (ParseInt b) as [minor|]; [|done].
  destruct (ParseInt c) as [micro|]; [|done].
  destruct v0. by injection Hparse as <-.
Qed.

Lemma set_suffix_inl (v : version.Version) (suffix err : string) :
  version.set_suffix v suffix = inl err -> err = version.UnknownSuffix suffix.
Proof.
  unfold version.set_suffix. destruct v.
  repeat case_match; try done. by intros [= <-].
Qed.

(** X3: only the empty string fails with [EmptyInput]. *)
Theorem X3_NewVersion_empty_iff (val : string) :
  version.NewVersion val = inl version.EmptyInput ↔ val = "".
Proof.
  split; [|by intros ->].
  unfold version.NewVersion. cbv zeta.
  destruct (String.eqb_spec val "") as [-> | _]; [done |].
  destruct (len val <? 5); [done |].
  destruct (2 <? Z.of_nat (length (Split (TrimPrefix val "v") "-"))); [done |].
  destruct (match Split (TrimPrefix val "v") "-" with
            | [_; suffix] => version.set_suffix version.Version_zero suffix
            | _ => inr version.Version_zero
            end) as [err | v0] eqn:Hflag.
  - intros [= ->].
    destruct (Split (TrimPrefix val "v") "-") as [|s0 [|s1 [|s2 segs]]]; try done.
    apply set_suffix_inl in Hflag. discriminate Hflag.
  - unfold version.NonNumericComponent.
    repeat case_match; try done; intros [= Herr]; discriminate Herr.
Qed.

Lemma set_suffix_unknown (v : version.Version) (suffix : string) :
  is_suffix_token suffix = false ->
  version.set_suffix v suffix = inl (version.UnknownSuffix suffix).
Proof.
  unfold is_suffix_token, suffix_tokens, version.set_suffix.
  cbn [existsb fst]. destruct v.
  repeat match goal with
         | |- context [String.eqb suffix ?t] => destruct (String.eqb suffix t)
         end; done.
Qed.

Lemma set_suffix_known (v : version.Version) (suffix : string) :
  is_suffix_token suffix = true -> ∃ v', version.set_suffix v suffix = inr v'.
Proof.
  unfold is_suffix_token, suffix_tokens, version.set_suffix.
  cbn [existsb fst]. destruct v.
  repeat match goal with
         | |- context [String.eqb suffix ?t] => destruct (String.eqb suffix t)
         end; cbn; eauto; done.
Qed.

(** X4: an input of five bytes or more with one suffix segment that is not
    one of the eight tokens fails with [UnknownSuffix] on that segment,
    whatever stands before it.  So the numbered suffixes of the
    documentation, like [alpha3], are rejected. *)
Theorem X4_NewVersion_unknown_suffix (val body suffix : string) :
  5 <= len val ->
  Split (TrimPrefix val "v") "-" = [body; suffix] ->
  is_suffix_token suffix = false ->
  version.NewVersion val = inl (version.UnknownSuffix suffix).
Proof.
  intros Hlen Hsplit Htoken. unfold version.NewVersion. cbv zeta.
  rewrite (len_pos_nonempty val Hlen), Hsplit.
  destruct (Z.ltb_spec (len val) 5); [lia |].
  cbn [length Z.of_nat Pos.of_succ_nat Pos.succ Z.ltb Z.compare Pos.compare
       Pos.compare_cont].
  by rewrite (set_suffix_unknown _ _ Htoken).
Qed.

Lemma X4_witness :
  5 <= len "1.0.0-alpha3"
  ∧ Split (TrimPrefix "1.0.0-alpha3" "v") "-" = ["1.0.0"; "alpha3"]
  ∧ is_suffix_token "alpha3" = false
  ∧ version.NewVersion "1.0.0-alpha3" = inl (version.UnknownSuffix "alpha3").
Proof.
  assert (5 <= len "1.0.0-alpha3") as Hlen by (vm_compute; discriminate).
  refine (conj Hlen (conj eq_refl (conj eq_refl _))).
  exact (X4_NewVersion_unknown_suffix "1.0.0-alpha3" "1.0.0" "alpha3"
           Hlen eq_refl eq_refl).
Defined.

(** X5: the components of a parsed version are never negative and fit
    [int64]: a minus sign cannot reach [ParseInt], since ["-"] separates the
    suffix. *)
Theorem X5_NewVersion_components_range (val : string) (v : version.Version) :
  version.NewVersion val = inr v ->
  0 <= version.Major v <= maxInt64
  ∧ 0 <= version.Minor v <= maxInt64
  ∧ 0 <= version.Micro v <= maxInt64.
Proof.
  intros (_ & _ & a & b & c & Hsplit & Ha & Hb & Hc)%NewVersion_inr_inv.
  pose proof (Split_segments_no_sep "-" (TrimPrefix val "v")) as Hsegs.
  pose proof (Split_nonempty "-" (TrimPrefix val "v")) as Hne.
  destruct (Split (TrimPrefix val "v") "-") as [|body segs]; [done |].
  cbn [hd] in Hsplit. apply Forall_cons in Hsegs as [Hbody _].
  pose proof (Split_segments _ "." body Hbody) as Hparts.
  rewrite Hsplit in Hparts.
  apply Forall_cons in Hparts as [Hna Hparts].
  apply Forall_cons in Hparts as [Hnb Hparts].
  apply Forall_cons in Hparts as [Hnc _].
  pose proof (ParseInt_range _ _ Ha). pose proof (ParseInt_nonneg _ _ Hna Ha).
  pose proof (ParseInt_range _ _ Hb). pose proof (ParseInt_nonneg _ _ Hnb Hb).
  pose proof (ParseInt_range _ _ Hc). pose proof (ParseInt_nonneg _ _ Hnc Hc).
  lia.
Qed.

Lemma X5_witness :
  version.NewVersion "v+2.05.1-RC" = inr (flagged 2 5 1 RC)
  ∧ 0 <= version.Major (flagged 2 5 1 RC) <= maxInt64
  ∧ 0 <= version.Minor (flagged 2 5 1 RC) <= maxInt64
  ∧ 0 <= version.Micro (flagged 2 5 1 RC) <= maxInt64.
Proof.
  exact (conj eq_refl
           (X5_NewVersion_components_range "v+2.05.1-RC" (flagged 2 5 1 RC) eq_refl)).
Defined.

(** X6: a leading ["v"] makes no difference: on an input of five bytes or
    more that does not start with ["v"], [NewVersion] gives the same result
    with and without the prefix. *)
Theorem X6_NewVersion_v_prefix (s : string) :
  5 <= len s -> HasPrefix s "v" = false ->
  version.NewVersion (String "v" s) = version.NewVersion s.
Proof.
  intros Hlen Hv. unfold version.NewVersion. cbv zeta.
  rewrite TrimPrefix_v. rewrite (len_pos_nonempty s Hlen).
  assert (TrimPrefix s "v" = s) as -> by (unfold TrimPrefix; by rewrite Hv).
  destruct (Z.ltb_spec (len s) 5); [lia |].
  destruct (Z.ltb_spec (len (String "v" s)) 5) as [Hshort|_]; [|done].
  unfold len in *. cbn [String.length] in Hshort. lia.
Qed.

Lemma X6_witness :
  5 <= len "1.2.3-beta" ∧ HasPrefix "1.2.3-beta" "v" = false
  ∧ version.NewVersion "v1.2.3-beta" = version.NewVersion "1.2.3-beta".
Proof.
  assert (5 <= len "1.2.3-beta") as Hlen by (vm_compute; discriminate).
  exact (conj Hlen (conj eq_refl (X6_NewVersion_v_prefix "1.2.3-beta" Hlen eq_refl))).
Defined.

(** X7: on a parsed version [Version.HasPrefix] tells whether the input had
    a suffix segment. *)
Theorem X7_HasPrefix_iff_suffix (val : string) (v : version.Version) :
  version.NewVersion val = inr v ->
  (version.Version_HasPrefix v = true
   ↔ length (Split (TrimPrefix val "v") "-") = 2%nat).
Proof.
  unfold version.NewVersion, version.Version_HasPrefix. cbv zeta.
  destruct (String.eqb val ""); [done |].
  destruct (len val <? 5); [done |].
  destruct (Z.ltb_spec 2 (Z.of_nat (length (Split (TrimPrefix val "v") "-"))));
    [done |].
  pose proof (Split_nonempty "-" (TrimPrefix val "v")).
  destruct (Split (TrimPrefix val "v") "-") as [|s0 [|s1 [|s2 segs]]];
    [done | | | cbn [length] in *; lia].
  - repeat case_match; try done; intros [= <-]; unfold version.Version_zero in *;
      inj_version; by cbn.
  - destruct (version.set_suffix version.Version_zero s1) as [err|v0] eqn:Hflag;
      [done |].
    assert (flag_count v0 = 1%nat) as Hcount.
    { revert Hflag. unfold version.set_suffix, version.Version_zero.
      repeat case_match; try done; by intros [= <-]. }
    repeat case_match; try done; intros [= <-]; subst; cbn in *.
    split; [done |]. intros _. unfold flag_count in Hcount. cbn in Hcount.
    repeat match goal with b : bool |- _ => destruct b end; cbn in *; done.
Qed.

Lemma X7_witness :
  version.NewVersion "v0.5.1-p" = inr (flagged 0 5 1 Patch)
  ∧ version.Version_HasPrefix (flagged 0 5 1 Patch) = true
  ∧ length (Split (TrimPrefix "v0.5.1-p" "v") "-") = 2%nat.
Proof.
  refine (conj eq_refl (conj _ eq_refl)).
  exact (proj2 (X7_HasPrefix_iff_suffix "v0.5.1-p" (flagged 0 5 1 Patch) eq_refl)
           eq_refl).
Defined.

(** X8: when the input has at least five bytes, no suffix or a recognized
    one, and three dot-separated components before the suffix,
    [NewVersion] reports the leftmost component that [ParseInt] rejects, by
    its position and its text. *)
Theorem X8_NewVersion_leftmost_non_numeric (val body a b c : string) :
  5 <= len val ->
  (Split (TrimPrefix val "v") "-" = [body]
   ∨ ∃ suffix, Split (TrimPrefix val "v") "-" = [body; suffix]
               ∧ is_suffix_token suffix = true) ->
  Split body "." = [a; b; c] ->
  (ParseInt a = None ->
   version.NewVersion val = inl (version.NonNumericComponent "1" a))
  ∧ (is_Some (ParseInt a) -> ParseInt b = None ->
     version.NewVersion val = inl (version.NonNumericComponent "2" b))
  ∧ (is_Some (ParseInt a) -> is_Some (ParseInt b) -> ParseInt c = None ->
     version.NewVersion val = inl (version.NonNumericComponent "3" c)).
Proof.
  intros Hlen Hsegs Hbody.
  assert (∃ v0, version.NewVersion val
                = match Split body "." with
                  | [v0'; v1; v2] =>
                      match ParseInt v0' with
                      | None => inl (version.NonNumericComponent "1" v0')
                      | Some major =>
                          match ParseInt v1 with
                          | None => inl (version.NonNumericComponent "2" v1)
                          | Some minor =>
                              match ParseInt v2 with
                              | None => inl (version.NonNumericComponent "3" v2)
                              | Some micro =>
                                  inr (version.mkVersion major minor micro
                                         (version.IsDev v0) (version.IsPatch v0)
                                         (version.IsAlpha v0) (version.IsBeta v0)
                                         (version.IsRC v0))
                              end
                          end
                      end
                  | _ => inl version.MalformedFormat
                  end) as [v0 ->].
  { unfold version.NewVersion. cbv zeta.
    rewrite (len_pos_nonempty val Hlen).
    destruct (Z.ltb_spec (len val) 5); [lia |].
    destruct Hsegs as [-> | (suffix & -> & Htoken)].
    - exists version.Version_zero. cbn [length hd]. by rewrite Hbody.
    - destruct (set_suffix_known version.Version_zero suffix Htoken) as [v0 Hv0].
      exists v0. cbn [length hd]. rewrite Hv0, Hbody.
      cbn [Z.of_nat Pos.of_succ_nat Pos.succ Z.ltb Z.compare Pos.compare
           Pos.compare_cont].
      by destruct v0. }
  rewrite Hbody. split; [|split].
  - by intros ->.
  - by intros [major ->] ->.
  - by intros [major ->] [minor ->] ->.
Qed.

Lemma X8_witness :
  5 <= len "1.b.c-dev"
  ∧ Split (TrimPrefix "1.b.c-dev" "v") "-" = ["1.b.c"; "dev"]
  ∧ is_suffix_token "dev" = true
  ∧ Split "1.b.c" "." = ["1"; "b"; "c"]
  ∧ ParseInt "b" = None
  ∧ version.NewVersion "1.b.c-dev" = inl (version.NonNumericComponent "2" "b").
Proof.
  assert (5 <= len "1.b.c-dev") as Hlen by (vm_compute; discriminate).
  refine (conj Hlen (conj eq_refl (conj eq_refl (conj eq_refl (conj eq_refl _))))).
  exact (proj1 (proj2 (X8_NewVersion_leftmost_non_numeric "1.b.c-dev" "1.b.c"
                         "1" "b" "c" Hlen
                         (or_intror (ex_intro _ "dev" (conj eq_refl eq_refl)))
                         eq_refl))
           (ex_intro _ 1 eq_refl) eq_refl).
Defined.

(** ** [TestVersion] *)

(** X9: run on the table of the test file, the loop of [TestVersion]
    records exactly one failure, "unexpected error", on the row of
    ["1.0.0-unknown_suffix"]: the message that row expects spells the word
    suffix differently from the one [NewVersion] returns. *)
Theorem X9_TestVersion_fails_once :
  version_test.TestVersion version_test.tests = ["unexpected error"]
  ∧ (∀ test, test ∈ version_test.tests ->
       version_test.TestVersion_case test ≠ [] ->
       version_test.Version test = "1.0.0-unknown_suffix")
  ∧ version.NewVersion "1.0.0-unknown_suffix"
    = inl "unknown version suffix 'unknown_suffix'".
Proof.
  split; [by vm_compute | split; [|by vm_compute]].
  intros test Hin. unfold version_test.tests in Hin.
  repeat (apply elem_of_cons in Hin as [-> | Hin]; [by vm_compute |]).
  by apply elem_of_nil in Hin.
Qed.

(** X10: what a row of [TestVersion] cannot detect: a row that expects no
    error passes whenever [NewVersion] fails, and a row whose expected
    version is returned passes whatever error it expects. *)
Theorem X10_TestVersion_case_blind (test : version_test.test_case) :
  (version_test.Error test = None ->
   ∀ err, version.NewVersion (version_test.Version test) = inl err ->
     version_test.TestVersion_case test = [])
  ∧ (version.NewVersion (version_test.Version test)
     = inr (version_test.Expected test) ->
     version_test.TestVersion_case test = []).
Proof.
  unfold version_test.TestVersion_case. cbv zeta. split.
  - by intros -> err ->.
  - intros ->.
    assert (version_test.Version_eqb (version_test.Expected test)
              (version_test.Expected test) = true) as ->; [|done].
    unfold version_test.Version_eqb.
    rewrite !Z.eqb_refl. by repeat (rewrite Bool.eqb_reflx).
Qed.

(** ** Reports and their rendering *)

Lemma ConfigErrors_Error_nil_config (errors : list ConfigError) :
  ConfigErrors_Error (mkConfigErrors None errors)
  = match errors with [] => Some "" | _ => None end.
Proof.
  unfold ConfigErrors_Error. cbn [Config_ Errors].
  destruct errors as [|e errors]; [done |]. cbn [foldl].
  induction errors as [|e' errors IH]; [done | exact IH].
Qed.

Lemma ConfigErrors_Error_ptr_None (config : option ConfigData)
    (errors : list (option ConfigError)) :
  foldl (fun (res : option string) (e : option ConfigError) =>
           match res, config, e with
           | Some res, Some config, Some e =>
               Some (res +:+ Sprintf_config_line (Path config) (ConfigError_Error e))
           | _, _, _ => None
           end) None errors = None.
Proof. induction errors as [|e errors IH]; [done | exact IH]. Qed.

(** X11: [ConfigErrors.Error] panics exactly when the error list is not
    empty and either the report has no config or some entry of the list is
    nil; in every other case it returns a text.  On a list without nil
    entries it is the rendering [ConfigErrors_Error]. *)
Theorem X11_ConfigErrors_Error_panics_iff (config : option ConfigData)
    (errors : list (option ConfigError)) :
  (ConfigErrors_Error_ptr config errors = None
   ↔ errors ≠ [] ∧ (config = None ∨ None ∈ errors))
  ∧ (∀ entries : list ConfigError,
       ConfigErrors_Error_ptr config (Some <$> entries)
       = ConfigErrors_Error (mkConfigErrors config entries)).
Proof.
  split.
  - unfold ConfigErrors_Error_ptr. destruct config as [config|].
    + assert (∀ res : string,
                foldl (fun (res : option string) (e : option ConfigError) =>
                         match res, e with
                         | Some res, Some e =>
                             Some (res +:+ Sprintf_config_line (Path config)
                                             (ConfigError_Error e))
                         | _, _ => None
                         end) (Some res) errors = None
                ↔ None ∈ errors) as Hgen.
      { induction errors as [|[e|] errors IH]; intros res; cbn [foldl].
        - split; [done | by intros ?%elem_of_nil].
        - rewrite IH. rewrite elem_of_cons. split; [by right | by intros [? | ?]].
        - rewrite (ConfigErrors_Error_ptr_None (Some config)).
          split; [intros _; by left | done]. }
      rewrite Hgen. split.
      * intros Hin. split; [by intros -> ; apply elem_of_nil in Hin | by right].
      * by intros [_ [? | ?]].
    + destruct errors as [|e errors]; cbn [foldl].
      * split; [done | by intros [? _]].
      * rewrite (ConfigErrors_Error_ptr_None None).
        split; [intros _; split; [done | by left] | done].
  - intros entries. unfold ConfigErrors_Error_ptr, ConfigErrors_Error.
    cbn [Config_ Errors]. generalize (Some "" : option string).
    induction entries as [|e entries IH]; intros res; [done |].
    cbn [fmap list_fmap foldl]. rewrite <- IH.
    by destruct res, config.
Qed.

(** X12: adding an error to a report that has a config adds one line to its
    text: the word config, the path of the config, a colon, the critical
    marker if the error is critical, the message, and a newline. *)
Theorem X12_Add_appends_line (ce : ConfigErrors) (config : ConfigData)
    (err : ConfigError) (text : string) :
  Config_ ce = Some config ->
  ConfigErrors_Error ce = Some text ->
  ConfigErrors_Error (Add ce err)
  = Some (text +:+ "config " +:+ Path config +:+ ": "
          +:+ (if Critical err then "<critical> " else "") +:+ Msg err +:+ newline)
  ∧ Len (Add ce err) = Len ce + 1.
Proof.
  destruct ce as [config' errors]. cbn [Config_]. intros -> Htext. split.
  - unfold ConfigErrors_Error, Add in *. cbn [Config_ Errors] in *.
    rewrite foldl_app, Htext. cbn [foldl]. do 2 f_equal.
    unfold Sprintf_config_line, ConfigError_Error.
    destruct (Critical err); [|done].
    change ("" +:+ "<critical> ") with "<critical> ". by rewrite append_assoc.
  - unfold Len, Add. cbn [Errors]. rewrite length_app. cbn [length]. lia.
Qed.

Lemma X12_witness :
  Config_ (mkConfigErrors (Some ConfigData_zero) []) = Some ConfigData_zero
  ∧ ConfigErrors_Error (mkConfigErrors (Some ConfigData_zero) []) = Some ""
  ∧ ConfigErrors_Error
      (Add (mkConfigErrors (Some ConfigData_zero) []) (mkConfigError "bad" true))
    = Some ("config : <critical> bad" +:+ newline).
Proof.
  refine (conj eq_refl (conj eq_refl _)).
  exact (proj1 (X12_Add_appends_line (mkConfigErrors (Some ConfigData_zero) [])
                  ConfigData_zero (mkConfigError "bad" true) "" eq_refl eq_refl)).
Defined.

(** ** The loader *)

(** X13: [NewConfigFromData] returns no error list exactly when the bytes
    decode and the decoded version string parses; the config then carries
    the parsed version. *)
Theorem X13_NewConfigFromData_no_errors_iff `{Library} (bytes : list Byte.byte)
    (configPath : string) :
  ((NewConfigFromData bytes configPath).2 = None
   ↔ ∃ decoded v, json_Unmarshal bytes = inr decoded
                  ∧ version.NewVersion (RawVersion decoded) = inr v)
  ∧ (∀ decoded v, json_Unmarshal bytes = inr decoded ->
       version.NewVersion (RawVersion decoded) = inr v ->
       Version (data (NewConfigFromData bytes configPath).1) = Some v).
Proof.
  unfold NewConfigFromData. split.
  - destruct (json_Unmarshal bytes) as [err | decoded].
    + split; [done | by intros (? & ? & ? & _)].
    + destruct (version.NewVersion (RawVersion decoded)) as [err | v] eqn:Hv;
        cbn; split; try done.
      * intros (? & ? & [= <-] & ?). congruence.
      * intros _. by exists decoded, v.
  - by intros decoded v -> ->.
Qed.

(** X14: an error list that [NewConfigFromData] returns holds exactly one
    finding, and the finding is critical exactly when the decoding
    failed. *)
Theorem X14_NewConfigFromData_one_finding `{Library} (bytes : list Byte.byte)
    (configPath : string) (report : ConfigErrors) :
  (NewConfigFromData bytes configPath).2 = Some report ->
  ∃ finding, Errors report = [finding]
    ∧ (Critical finding = true ↔ ∃ err, json_Unmarshal bytes = inl err)
    ∧ (Critical finding = true ->
       (NewConfigFromData bytes configPath).1 = Config_zero).
Proof.
  unfold NewConfigFromData.
  destruct (json_Unmarshal bytes) as [err | decoded].
  - intros [= <-]. eexists. split; [done |]. split; [|done]. split; eauto.
  - destruct (version.NewVersion (RawVersion decoded)) as [err | v];
      cbn; [|done].
    intros [= <-]. eexists. split; [done |]. cbn.
    split; [|done]. by split; [|intros [? ?]].
Qed.

Lemma X14_witness :
  (@NewConfigFromData sample_library [Byte.x7b] "/proj/app/composer.json").2
  = Some (NewConfigErrors [mkConfigError "unexpected end of JSON input" true])
  ∧ ∃ finding,
      Errors (NewConfigErrors [mkConfigError "unexpected end of JSON input" true])
      = [finding]
      ∧ (Critical finding = true
         ↔ ∃ err, @json_Unmarshal sample_library [Byte.x7b] = inl err)
      ∧ (Critical finding = true ->
         (@NewConfigFromData sample_library [Byte.x7b] "/proj/app/composer.json").1
         = Config_zero).
Proof.
  exact (conj eq_refl
           (@X14_NewConfigFromData_one_finding sample_library [Byte.x7b]
              "/proj/app/composer.json" _ eq_refl)).
Defined.

(** X15: the error list of a version that does not parse renders as one
    line, prefixed by the absolute path of the manifest; the only error
    list of the loader whose rendering panics is that of a failed
    decoding. *)
Theorem X15_NewConfigFromData_render `{Library} (bytes : list Byte.byte)
    (configPath : string) (report : ConfigErrors) :
  (NewConfigFromData bytes configPath).2 = Some report ->
  (ConfigErrors_Error report = None ↔ ∃ err, json_Unmarshal bytes = inl err)
  ∧ (∀ decoded err, json_Unmarshal bytes = inr decoded ->
       version.NewVersion (RawVersion decoded) = inl err ->
       ConfigErrors_Error report
       = Some ("config " +:+ filepath_Abs configPath +:+ ": " +:+ err +:+ newline)).
Proof.
  unfold NewConfigFromData.
  destruct (json_Unmarshal bytes) as [err | decoded].
  - intros [= <-]. split; [|done]. split; eauto.
  - destruct (version.NewVersion (RawVersion decoded)) as [err | v] eqn:Hv;
      cbn; [|done].
    intros [= <-]. split.
    + by split; [|intros [? ?]].
    + intros ? err' [= <-] Hv'. rewrite Hv in Hv'. injection Hv' as <-.
      by unfold ConfigErrors_Error.
Qed.

Lemma X15_witness :
  (@NewConfigFromData sample_library [Byte.x7b; Byte.x7d] "/proj/app/composer.json").2
  = Some (mkConfigErrors
            (Some (data (@NewConfigFromData sample_library [Byte.x7b; Byte.x7d]
                           "/proj/app/composer.json").1))
            [mkConfigError "version is empty" false])
  ∧ ConfigErrors_Error
      (mkConfigErrors
         (Some (data (@NewConfigFromData sample_library [Byte.x7b; Byte.x7d]
                        "/proj/app/composer.json").1))
         [mkConfigError "version is empty" false])
    = Some ("config /proj/app/composer.json: version is empty" +:+ newline).
Proof.
  refine (conj eq_refl _).
  exact (proj2 (@X15_NewConfigFromData_render sample_library [Byte.x7b; Byte.x7d]
                  "/proj/app/composer.json" _ eq_refl)
           ConfigData_zero "version is empty" eq_refl eq_refl).
Defined.

(** X16: a manifest that decodes without a version, or with an empty one,
    is loaded with the non-critical finding that the version is empty and
    with no parsed version. *)
Theorem X16_NewConfigFromData_missing_version `{Library} (bytes : list Byte.byte)
    (configPath : string) (decoded : ConfigData) :
  json_Unmarshal bytes = inr decoded ->
  RawVersion decoded = "" ->
  Version (data (NewConfigFromData bytes configPath).1) = None
  ∧ ∃ report, (NewConfigFromData bytes configPath).2 = Some report
      ∧ Errors report = [mkConfigError "version is empty" false].
Proof.
  intros Hdecoded Hraw. unfold NewConfigFromData. rewrite Hdecoded, Hraw.
  cbn. split; [done |]. by eexists.
Qed.

Lemma X16_witness :
  @json_Unmarshal sample_library [Byte.x7b; Byte.x7d] = inr ConfigData_zero
  ∧ RawVersion ConfigData_zero = ""
  ∧ Version (data (@NewConfigFromData sample_library [Byte.x7b; Byte.x7d]
                     "/proj/app/composer.json").1) = None.
Proof.
  refine (conj eq_refl (conj eq_refl _)).
  exact (proj1 (@X16_NewConfigFromData_missing_version sample_library
                  [Byte.x7b; Byte.x7d] "/proj/app/composer.json" ConfigData_zero
                  eq_refl eq_refl)).
Defined.

(** X17: [NewConfigFromFile] returns the placeholder config and one
    critical finding, whose rendering panics, exactly when the file cannot
    be read or its bytes do not decode; when the file is read it returns
    what [NewConfigFromData] returns on its bytes. *)
Theorem X17_NewConfigFromFile `{Library}
    (ReadFile : string -> string + list Byte.byte) (path : string) :
  ((∃ err, NewConfigFromFile ReadFile path
           = (Config_zero, Some (NewConfigErrors [mkConfigError err true]))
           ∧ ConfigErrors_Error (NewConfigErrors [mkConfigError err true]) = None)
   ↔ (∃ err, ReadFile path = inl err)
     ∨ (∃ bytes err, ReadFile path = inr bytes ∧ json_Unmarshal bytes = inl err))
  ∧ (∀ bytes, ReadFile path = inr bytes ->
       NewConfigFromFile ReadFile path = NewConfigFromData bytes path).
Proof.
  unfold NewConfigFromFile. split; [|by intros bytes ->].
  destruct (ReadFile path) as [err | bytes].
  - split; [intros _; left; by eexists | intros _; by exists err].
  - unfold NewConfigFromData.
    destruct (json_Unmarshal bytes) as [err | decoded] eqn:Hdecode.
    + split; [intros _; right; by exists bytes, err | intros _; by exists err].
    + split.
      * intros (err & Hload & _). revert Hload.
        destruct (version.NewVersion (RawVersion decoded)); cbn; [|done].
        unfold NewConfigErrors. intros Hload. by injection Hload.
      * intros [[err [=]] | (bytes' & err & [= <-] & Hfail)]. congruence.
Qed.

(** ** Custom checks *)



(** X19: when no registered check writes to the config, [CheckConfig]
    leaves the config as it was, and its findings are what the checks
    return on that config, each taken alone, in registration order. *)
Theorem X19_CheckConfig_read_only (c : Config) :
  (∀ check config, check ∈ Checks c -> (check config).1 = config) ->
  data (CheckConfig c).1.2 = data c
  ∧ match (CheckConfig c).2 with Some report => Errors report | None => [] end
    = omap (fun check : Check => (check (data c)).2) (Checks c)
  ∧ ∀ report, (CheckConfig c).2 = Some report -> Config_ report = Some (data c).
Proof.
  intros Hro. unfold CheckConfig. cbn [fst snd data].
  assert (∀ checks i st,
            (∀ check config, check ∈ checks -> (check config).1 = config) ->
            run_config (CheckConfig_loop checks i st) = run_config st
            ∧ run_errors (CheckConfig_loop checks i st)
              = run_errors st
                ++ omap (fun check : Check => (check (run_config st)).2) checks)
    as Hloop.
  { clear. induction checks as [|check checks IH]; intros i st Hro.
    - cbn. by rewrite app_nil_r.
    - cbn [CheckConfig_loop omap].
      pose proof (Hro check (run_config st) (list_elem_of_here _ _)) as Hsame.
      destruct (check (run_config st)) as [config err] eqn:Hcheck.
      cbn [fst snd] in *. subst config.
      edestruct (IH (S i)) as [-> ->];
        [intros; apply Hro; by apply list_elem_of_further |].
      cbn [run_config run_errors]. split; [done |].
      cbn [omap list_omap]. rewrite Hcheck. cbn [snd].
      destruct err; [by rewrite <- app_assoc | done]. }
  destruct (Hloop (Checks c) 0%nat (mkRun (data c) [] []) Hro) as [Hconfig Herrors].
  cbn [run_config run_errors app] in *. rewrite Hconfig.
  split; [done |]. unfold Len. cbn [Errors]. rewrite Herrors.
  destruct (omap (fun check : Check => (check (data c)).2) (Checks c));
    cbn; [by split | split; [done |]]. by intros report [= <-].
Qed.

Lemma X19_witness :
  (∀ check config,
     check ∈ Checks (AddCheck (AddCheck Config_zero check_name_prefix)
                       check_description) ->
     (check config).1 = config)
  ∧ match (CheckConfig (AddCheck (AddCheck Config_zero check_name_prefix)
                          check_description)).2 with
    | Some report => Errors report
    | None => []
    end
    = [mkConfigError "name must starts with prefix my/" true;
       mkConfigError "description is empty" false].
Proof.
  assert (∀ check config,
            check ∈ Checks (AddCheck (AddCheck Config_zero check_name_prefix)
                              check_description) ->
            (check config).1 = config) as Hro.
  { intros check config. cbn [AddCheck Checks Config_zero app data].
    intros [-> | [-> | []%elem_of_nil]%elem_of_cons]%elem_of_cons; done. }
  refine (conj Hro _).
  exact (proj1 (proj2 (X19_CheckConfig_read_only _ Hro))).
Defined.

Lemma omap_length_le {A B} (f : A -> option B) (l : list A) :
  (length (omap f l) <= length l)%nat.
Proof.
  induction l as [|x l IH]; [done |]. cbn [omap list_omap length].
  destruct (f x); cbn [length]; lia.
Qed.

(** X20: a report of [CheckConfig] is never empty, holds at most one
    finding per registered check, refers to the config the checks leave,
    and renders without panic. *)
Theorem X20_CheckConfig_report (c : Config) (report : ConfigErrors) :
  (CheckConfig c).2 = Some report ->
  Errors report ≠ []
  ∧ (length (Errors report) <= length (Checks c))%nat
  ∧ Config_ report = Some (data (CheckConfig c).1.2)
  ∧ is_Some (ConfigErrors_Error report).
Proof.
  unfold CheckConfig. cbn [fst snd data].
  destruct (CheckConfig_loop_spec (Checks c) 0 (mkRun (data c) [] []))
    as [_ Herrors]. cbn [run_errors run_config app] in Herrors.
  unfold Len. cbn [Errors].
  destruct (Z.eqb_spec (Z.of_nat (length (run_errors
              (CheckConfig_loop (Checks c) 0 (mkRun (data c) [] []))))) 0)
    as [_ | Hne]; [done |].
  intros [= <-]. cbn [Errors Config_]. split; [|split; [|split]].
  - intros Hnil. rewrite Hnil in Hne. done.
  - rewrite Herrors. etrans; [apply omap_length_le |].
    by rewrite check_outcomes_length.
  - done.
  - rewrite ConfigErrors_Error_lines. by eexists.
Qed.

Lemma X20_witness :
  (CheckConfig (AddCheck (AddCheck Config_zero check_rename) check_description)).2
  = Some (mkConfigErrors
            (Some (data (CheckConfig (AddCheck (AddCheck Config_zero check_rename)
                                        check_description)).1.2))
            [mkConfigError "description is empty" false])
  ∧ Name (data (CheckConfig (AddCheck (AddCheck Config_zero check_rename)
                               check_description)).1.2) = "my/renamed"
  ∧ is_Some (ConfigErrors_Error
               (mkConfigErrors
                  (Some (data (CheckConfig
                                 (AddCheck (AddCheck Config_zero check_rename)
                                    check_description)).1.2))
                  [mkConfigError "description is empty" false])).
Proof.
  refine (conj eq_refl (conj eq_refl _)).
  exact (proj2 (proj2 (proj2
           (X20_CheckConfig_report
              (AddCheck (AddCheck Config_zero check_rename) check_description)
              _ eq_refl)))).
Defined.

(** ** Local repositories, once more *)

(** X21: resolution is sticky: after a first [ResolveUrl] a second one
    changes nothing, whatever base it is given; the type is never changed,
    and an entry ends up resolved exactly when it was resolved before or
    its type is ["path"]. *)
Theorem X21_ResolveUrl_sticky `{Library} (e : ConfigRepo) (base base' : string) :
  ResolveUrl (ResolveUrl e base) base' = ResolveUrl e base
  ∧ Type_ (ResolveUrl e base) = Type_ e
  ∧ Resolved (ResolveUrl e base) = Resolved e || String.eqb (Type_ e) "path".
Proof.
  destruct e as [type url resolved]. unfold ResolveUrl. cbn [Resolved Type_ Url].
  destruct resolved; [done |].
  destruct (String.eqb type "path") eqn:Htype; cbn; by rewrite ?Htype.
Qed.

(** ** The PSR-4 lookup, once more *)

Lemma HasPrefix_length (s p : string) :
  HasPrefix s p = true -> (String.length p <= String.length s)%nat.
Proof.
  unfold HasPrefix. revert s. induction p as [|a p IH]; intros [|c s];
    cbn [String.length]; try done; try lia.
  rewrite prefix_cons. destruct (ascii_dec a c); [|done].
  intros Hp%IH. lia.
Qed.

Lemma HasPrefix_refl (s : string) : HasPrefix s s = true.
Proof.
  unfold HasPrefix. induction s as [|c s IH]; [done |].
  rewrite prefix_cons. by destruct (ascii_dec c c).
Qed.

Lemma psr4_range_sound (table : gmap string string) (name path : string)
    (found : bool) :
  Psr4PathForNamespace_range (map_to_list table) name = (path, found) ->
  if found
  then path ≠ "" ∧ ∃ key, key ≠ "" ∧ table !! key = Some path
                          ∧ HasPrefix (name +:+ "\") key = true
  else path = "".
Proof.
  unfold Psr4PathForNamespace_range.
  destruct (psr4_loop_table table (name +:+ "\") (map_to_list table) (reflexivity _))
    as [[-> _] | [[(Hne & _ & Hpre) _] Hr]].
  - by intros [= <- <-].
  - destruct (foldl (psr4_step (name +:+ "\")) ("", "") (map_to_list table))
      as [k p].
    cbn [fst snd] in *.
    destruct (String.eqb_spec p "") as [-> | Hp]; intros [= <- <-]; [done |].
    split; [done |]. by exists k.
Qed.

(** X22: what the table lookup returns comes from the table: a path it
    reports as found is not empty and is the path of a non-empty key that
    is a prefix of the query followed by the separator; with not-found the
    path is empty. *)
Theorem X22_Psr4PathForNamespace_sound (table : gmap string string)
    (name : string) (order : list (string * string)) (path : string)
    (found : bool) :
  order ≡ₚ map_to_list table ->
  Psr4PathForNamespace_range order name = (path, found) ->
  if found
  then path ≠ "" ∧ ∃ key, key ≠ "" ∧ table !! key = Some path
                          ∧ HasPrefix (name +:+ "\") key = true
  else path = "".
Proof.
  intros Hperm Hrange. apply psr4_range_sound.
  destruct (psr4_loop_table table (name +:+ "\") order Hperm)
    as [[_ Hnone] | [Hlong Hr]].
  - rewrite (psr4_range_none table) in * by done. done.
  - rewrite (psr4_range_found table name _ _ _ (reflexivity _) Hlong Hr).
    by rewrite (psr4_range_found table name _ _ _ Hperm Hlong Hr) in Hrange.
Qed.

Lemma X22_witness :
  map_to_list table_shadowed ≡ₚ map_to_list table_shadowed
  ∧ Psr4PathForNamespace_range (map_to_list table_shadowed) "My\App" = ("a", true)
  ∧ "a" ≠ ""
  ∧ ∃ key, key ≠ "" ∧ table_shadowed !! key = Some "a"
           ∧ HasPrefix ("My\App" +:+ "\") key = true.
Proof.
  refine (conj (reflexivity _) (conj eq_refl _)).
  exact (X22_Psr4PathForNamespace_sound table_shadowed "My\App"
           (map_to_list table_shadowed) "a" true (reflexivity _) eq_refl).
Defined.

(** X23: a key equal to the namespace followed by the separator always
    wins: when its path is not empty the lookup returns that path, whatever
    else the table holds. *)
Theorem X23_Psr4PathForNamespace_exact (table : gmap string string)
    (name : string) (order : list (string * string)) (path : string) :
  order ≡ₚ map_to_list table ->
  table !! (name +:+ "\") = Some path ->
  path ≠ "" ->
  Psr4PathForNamespace_range order name = (path, true).
Proof.
  intros Hperm Hkey Hpath.
  rewrite (psr4_range_found table name order (name +:+ "\") path Hperm); [| |done].
  - by apply String.eqb_neq in Hpath as ->.
  - split.
    + split; [|split; [by eexists | apply HasPrefix_refl]].
      intros Hnil. apply (f_equal String.length) in Hnil.
      rewrite length_append in Hnil. cbn in Hnil. lia.
    + intros key' (_ & _ & Hpre). by apply HasPrefix_length.
Qed.

Lemma X23_witness :
  map_to_list table_core ≡ₚ map_to_list table_core
  ∧ table_core !! ("My\Core" +:+ "\") = Some "src"
  ∧ "src" ≠ ""
  ∧ Psr4PathForNamespace_range (map_to_list table_core) "My\Core" = ("src", true).
Proof.
  assert ("src" ≠ "") as Hne by discriminate.
  refine (conj (reflexivity _) (conj eq_refl (conj Hne _))).
  exact (X23_Psr4PathForNamespace_exact table_core "My\Core"
           (map_to_list table_core) "src" (reflexivity _) eq_refl Hne).
Defined.

(** X24: a namespace is not resolved through a key that is longer than the
    namespace with its separator: the lookup tests whether a key is a prefix
    of the namespace, not whether the namespace is a prefix of a key.  So a
    parent of every registered prefix is not found. *)
Theorem X24_Psr4PathForNamespace_parent (table : gmap string string)
    (name : string) (order : list (string * string)) :
  order ≡ₚ map_to_list table ->
  (∀ key, is_Some (table !! key) ->
     (String.length (name +:+ "\") < String.length key)%nat) ->
  Psr4PathForNamespace_range order name = ("", false).
Proof.
  intros Hperm Hlong. apply (psr4_range_none table); [done |].
  intros key (_ & Hkey & Hpre). apply HasPrefix_length in Hpre.
  specialize (Hlong key Hkey). lia.
Qed.

Lemma X24_witness :
  map_to_list table_core ≡ₚ map_to_list table_core
  ∧ (∀ key, is_Some (table_core !! key) ->
       (String.length ("My" +:+ "\") < String.length key)%nat)
  ∧ HasPrefix "My\Core\" ("My" +:+ "\") = true
  ∧ Psr4PathForNamespace_range (map_to_list table_core) "My" = ("", false).
Proof.
  assert (∀ key, is_Some (table_core !! key) ->
            (String.length ("My" +:+ "\") < String.length key)%nat) as Hlong.
  { intros key [p Hp]. unfold table_core in Hp.
    apply lookup_singleton_Some in Hp as [<- _]. change (3 < 8)%nat. lia. }
  refine (conj (reflexivity _) (conj Hlong (conj eq_refl _))).
  exact (X24_Psr4PathForNamespace_parent table_core "My" (map_to_list table_core)
           (reflexivity _) Hlong).
Defined.

(** X25: the path the manifest-level lookup reports as found is the base
    name of the root directory, a slash, and a non-empty path of the primary
    or of the dev table, stored under a non-empty key that is a prefix of
    the query followed by the separator; with not-found the path is
    empty. *)
Theorem X25_Config_Psr4PathForNamespace_shape `{Library} (c : Config)
    (name path : string) (found : bool) :
  Config_Psr4PathForNamespace c name = (path, found) ->
  if found
  then ∃ table key relative,
      (table = Psr4 (Autoload_ (data c)) ∨ table = Psr4 (AutoloadDev (data c)))
      ∧ key ≠ "" ∧ table !! key = Some relative ∧ relative ≠ ""
      ∧ HasPrefix (name +:+ "\") key = true
      ∧ path = filepath_Base (RootDir (data c)) +:+ "/" +:+ relative
  else path = "".
Proof.
  unfold Config_Psr4PathForNamespace, Autoload_Psr4PathForNamespace.
  destruct (Psr4PathForNamespace_range (map_to_list (Psr4 (Autoload_ (data c)))) name)
    as [p1 found1] eqn:H1.
  apply (psr4_range_sound (Psr4 (Autoload_ (data c)))) in H1.
  destruct found1.
  - intros [= <- <-]. destruct H1 as (Hne & key & Hkey & Hp & Hpre).
    exists (Psr4 (Autoload_ (data c))), key, p1. eauto 10.
  - destruct (Psr4PathForNamespace_range
                (map_to_list (Psr4 (AutoloadDev (data c)))) name)
      as [p2 found2] eqn:H2.
    apply (psr4_range_sound (Psr4 (AutoloadDev (data c)))) in H2.
    destruct found2; intros [= <- <-]; [|done].
    destruct H2 as (Hne & key & Hkey & Hp & Hpre).
    exists (Psr4 (AutoloadDev (data c))), key, p2. eauto 10.
Qed.

Lemma X25_witness :
  @Config_Psr4PathForNamespace sample_library config_app "My\Core\Utils"
  = ("app/src", true)
  ∧ ∃ table key relative,
      (table = Psr4 (Autoload_ (data config_app))
       ∨ table = Psr4 (AutoloadDev (data config_app)))
      ∧ key ≠ "" ∧ table !! key = Some relative ∧ relative ≠ ""
      ∧ HasPrefix ("My\Core\Utils" +:+ "\") key = true
      ∧ "app/src"
        = @filepath_Base sample_library (RootDir (data config_app))
          +:+ "/" +:+ relative.
Proof.
  exact (conj eq_refl
           (@X25_Config_Psr4PathForNamespace_shape sample_library config_app
              "My\Core\Utils" "app/src" true eq_refl)).
Defined.
